(** * The 15-puzzle greedy solver (15Puzzle.py), embedded and verified

    Python integers are modelled as [Z]; Python lists as [list]; a Python
    exception as the [Raises] outcome.  The two [while] loops take fuel and
    yield [OutOfFuel] when it runs out. *)

From stdpp Require Import base numbers option list sorting sets relations.
From Stdlib Require Import Ascii.
From stdpp Require Import strings pretty.

#[local] Open Scope Z_scope.

(** ** Outcomes of a Python computation *)

Inductive pyexn : Type := IndexError | ValueError.

Inductive outcome (A : Type) : Type :=
  | Returns (a : A)
  | Raises (e : pyexn)
  | OutOfFuel.

Arguments Returns {A} a.
Arguments Raises {A} e.
Arguments OutOfFuel {A}.

#[global] Instance outcome_ret : MRet outcome := λ A a, Returns a.

#[global] Instance outcome_bind : MBind outcome := λ A B k m,
  match m with
  | Returns a => k a
  | Raises e => Raises e
  | OutOfFuel => OutOfFuel
  end.

(** [for x in xs: s = body(s, x)], with an exception leaving the loop. *)
Fixpoint for_each {A S : Type} (xs : list A) (body : S → A → outcome S)
    (s : S) : outcome S :=
  match xs with
  | [] => Returns s
  | x :: rest => s' ← body s x; for_each rest body s'
  end.

(** ** Python list primitives *)

(** [range(lo, hi)] *)
Definition range_from (lo hi : Z) : list Z := seqZ lo (hi - lo).

(** [range(n)] *)
Definition range (n : Z) : list Z := range_from 0 n.

(** [l[i]]: a negative index counts from the end, an index out of range
    raises IndexError. *)
Definition getitem {A : Type} (l : list A) (i : Z) : outcome A :=
  let n := Z.of_nat (length l) in
  let j := if i <? 0 then i + n else i in
  if (j <? 0) || (n <=? j) then Raises IndexError
  else match l !! Z.to_nat j with
       | Some x => Returns x
       | None => Raises IndexError
       end.

(** [l[i] = x] *)
Definition setitem {A : Type} (l : list A) (i : Z) (x : A) : outcome (list A) :=
  let n := Z.of_nat (length l) in
  let j := if i <? 0 then i + n else i in
  if (j <? 0) || (n <=? j) then Raises IndexError
  else Returns (<[Z.to_nat j := x]> l).

(** [l.pop(i)], the popped element dropped *)
Definition pop {A : Type} (l : list A) (i : Z) : outcome (list A) :=
  let n := Z.of_nat (length l) in
  let j := if i <? 0 then i + n else i in
  if (j <? 0) || (n <=? j) then Raises IndexError
  else Returns (delete (Z.to_nat j) l).

(** [l.index(v)]: the first position holding [v], ValueError if none. *)
Fixpoint index_from (l : list Z) (v : Z) (position : Z) : outcome Z :=
  match l with
  | [] => Raises ValueError
  | x :: rest => if x =? v then Returns position
                 else index_from rest v (position + 1)
  end.

Definition index (l : list Z) (v : Z) : outcome Z := index_from l v 0.

(** ** Boards *)

(** A board is the flat list of its sixteen cells, row by row. *)
Abbreviation Board := (list Z) (only parsing).

Definition GOAL_BOARD : Board :=
  [1; 2; 3; 4;
   5; 6; 7; 8;
   9; 10; 11; 12;
   13; 14; 15; 0].

(** A valid board holds each of 0..15 once (what [read_board_from_user]
    accepts: sixteen integers that sort to [list(range(16))]). *)
Definition valid_board (b : Board) : Prop := b ≡ₚ range 16.

Definition is_valid_board (b : Board) : bool :=
  bool_decide (merge_sort Z.le b = range 16).

(** ** compute_manhattan_total *)

Definition tile_distance (position tile_value : Z) : Z :=
  let current_row := position / 4 in
  let current_column := position mod 4 in
  let goal_position := tile_value - 1 in
  let goal_row := goal_position / 4 in
  let goal_column := goal_position mod 4 in
  Z.abs (current_row - goal_row) + Z.abs (current_column - goal_column).

Definition manhattan_body (board : Board) (total_distance position : Z)
    : outcome Z :=
  tile_value ← getitem board position;
  if tile_value =? 0 then Returns total_distance
  else Returns (total_distance + tile_distance position tile_value).

Definition compute_manhattan_total (board : Board) : outcome Z :=
  for_each (range 16) (manhattan_body board) 0.

(** ** generate_all_neighbor_boards *)

Definition possible_shifts (index_of_empty : Z) : list Z :=
  let empty_row := index_of_empty / 4 in
  let empty_column := index_of_empty mod 4 in
  (if 0 <? empty_row then [-4] else [])
  ++ (if empty_row <? 3 then [4] else [])
  ++ (if 0 <? empty_column then [-1] else [])
  ++ (if empty_column <? 3 then [1] else []).

(** One turn of the second loop: copy the board and exchange the blank with
    the tile [shift] cells away. *)
Definition slide (board : Board) (index_of_empty shift : Z) : outcome Board :=
  let new_empty_position := index_of_empty + shift in
  let new_board := board in
  temporary ← getitem new_board index_of_empty;
  moved ← getitem new_board new_empty_position;
  new_board ← setitem new_board index_of_empty moved;
  setitem new_board new_empty_position temporary.

Definition generate_all_neighbor_boards (board : Board) : outcome (list Board) :=
  index_of_empty ← index board 0;
  for_each (possible_shifts index_of_empty)
    (λ list_of_neighbors shift,
       new_board ← slide board index_of_empty shift;
       Returns (list_of_neighbors ++ [new_board]))
    [].

(** ** boards_are_equal and find_board_index *)

Fixpoint boards_agree_on (board_a board_b : Board) (positions : list Z)
    : outcome bool :=
  match positions with
  | [] => Returns true
  | position :: rest =>
      a ← getitem board_a position;
      b ← getitem board_b position;
      if negb (a =? b) then Returns false
      else boards_agree_on board_a board_b rest
  end.

Definition boards_are_equal (board_a board_b : Board) : outcome bool :=
  boards_agree_on board_a board_b (range 16).

Fixpoint find_board_among (list_of_all_boards : list Board) (board : Board)
    (indices : list Z) : outcome Z :=
  match indices with
  | [] => Returns (-1)
  | index :: rest =>
      candidate ← getitem list_of_all_boards index;
      same ← boards_are_equal candidate board;
      if same : bool then Returns index
      else find_board_among list_of_all_boards board rest
  end.

Definition find_board_index (list_of_all_boards : list Board) (board : Board)
    : outcome Z :=
  find_board_among list_of_all_boards board
    (range (Z.of_nat (length list_of_all_boards))).

(** ** greedy_best_first_search *)

(** The inner [for] of the selection: the state is
    [(best_score, best_board_index, best_frontier_position)]. *)
Definition selection_body (list_of_all_boards : list Board)
    (frontier_indices : list Z) (best : Z * Z * Z) (position_in_frontier : Z)
    : outcome (Z * Z * Z) :=
  let '(best_score, best_board_index, best_frontier_position) := best in
  current_index ← getitem frontier_indices position_in_frontier;
  current_board ← getitem list_of_all_boards current_index;
  current_score ← compute_manhattan_total current_board;
  if current_score <? best_score
  then Returns (current_score, current_index, position_in_frontier)
  else Returns (best_score, best_board_index, best_frontier_position).

(** Choose the frontier entry with the smallest Manhattan score; yields
    [(best_frontier_position, best_board_index)]. *)
Definition select_best (list_of_all_boards : list Board)
    (frontier_indices : list Z) : outcome (Z * Z) :=
  let best_frontier_position := 0 in
  best_board_index ← getitem frontier_indices 0;
  best_board ← getitem list_of_all_boards best_board_index;
  best_score ← compute_manhattan_total best_board;
  best ← for_each (range_from 1 (Z.of_nat (length frontier_indices)))
            (selection_body list_of_all_boards frontier_indices)
            (best_score, best_board_index, best_frontier_position);
  Returns (best.2, best.1.2).

(** [while index != -1: path_indices.append(index); index = parent_index[index]] *)
Fixpoint walk_parents (fuel : nat) (parent_index : list Z) (index : Z)
    (path_indices : list Z) : outcome (list Z) :=
  if negb (index =? -1) then
    match fuel with
    | O => OutOfFuel
    | S fuel' =>
        next ← getitem parent_index index;
        walk_parents fuel' parent_index next (path_indices ++ [index])
    end
  else Returns path_indices.

(** The success branch: parent walk, reversal, and the boards looked up.
    The walk visits each registry entry at most once when parents point
    backwards, so the registry's length is fuel enough. *)
Definition reconstruct_path (list_of_all_boards : list Board)
    (parent_index : list Z) (best_board_index : Z) : outcome (list Board) :=
  path_indices ← walk_parents (length parent_index) parent_index
                    best_board_index [];
  let path_indices := reverse path_indices in
  for_each path_indices
    (λ path_of_boards index,
       b ← getitem list_of_all_boards index;
       Returns (path_of_boards ++ [b]))
    [].

(** The registry, the parent links and the frontier. *)
Abbreviation tables := (list Board * list Z * list Z)%type (only parsing).

(** One turn of [for neighbor in neighbor_boards]. *)
Definition record_neighbor (best_board_index : Z) (t : tables)
    (neighbor : Board) : outcome tables :=
  let '(list_of_all_boards, parent_index, frontier_indices) := t in
  existing_index ← find_board_index list_of_all_boards neighbor;
  if existing_index =? -1 then
    let list_of_all_boards := list_of_all_boards ++ [neighbor] in
    let parent_index := parent_index ++ [best_board_index] in
    let frontier_indices :=
      frontier_indices ++ [Z.of_nat (length list_of_all_boards) - 1] in
    Returns (list_of_all_boards, parent_index, frontier_indices)
  else Returns t.

Record search_state : Type := SearchState {
  list_of_all_boards : list Board;
  parent_index : list Z;
  frontier_indices : list Z;
  number_of_expanded_boards : Z
}.

(** What the function returns: the path or [None], and the count. *)
Abbreviation search_result := (option (list Board) * Z)%type (only parsing).

(** The body of the outer [while]: either the function returns from inside
    the loop ([inl]) or the loop goes on with a new state ([inr]). *)
Definition search_step (st : search_state)
    : outcome (search_result + search_state) :=
  chosen ← select_best (list_of_all_boards st) (frontier_indices st);
  let '(best_frontier_position, best_board_index) := chosen in
  frontier ← pop (frontier_indices st) best_frontier_position;
  current_board ← getitem (list_of_all_boards st) best_board_index;
  let expanded := number_of_expanded_boards st + 1 in
  at_goal ← boards_are_equal current_board GOAL_BOARD;
  if at_goal : bool then
    path_of_boards ← reconstruct_path (list_of_all_boards st)
                        (parent_index st) best_board_index;
    Returns (inl (Some path_of_boards, expanded))
  else
    neighbor_boards ← generate_all_neighbor_boards current_board;
    t ← for_each neighbor_boards (record_neighbor best_board_index)
          (list_of_all_boards st, parent_index st, frontier);
    Returns (inr (SearchState t.1.1 t.1.2 t.2 expanded)).

Definition loop_condition (maximum_number_of_expansions : Z)
    (st : search_state) : bool :=
  (0 <? Z.of_nat (length (frontier_indices st)))
  && (number_of_expanded_boards st <? maximum_number_of_expansions).

Fixpoint search_loop (fuel : nat) (maximum_number_of_expansions : Z)
    (st : search_state) : outcome search_result :=
  if loop_condition maximum_number_of_expansions st then
    match fuel with
    | O => OutOfFuel
    | S fuel' =>
        next ← search_step st;
        match next with
        | inl result => Returns result
        | inr st' => search_loop fuel' maximum_number_of_expansions st'
        end
    end
  else Returns (None, number_of_expanded_boards st).

Definition initial_state (starting_board : Board) : search_state :=
  SearchState [starting_board] [-1] [0] 0.

(** The search with an explicit bound on the turns of the outer loop. *)
Definition greedy_best_first_search_fuel (fuel : nat) (starting_board : Board)
    (maximum_number_of_expansions : Z) : outcome search_result :=
  search_loop fuel maximum_number_of_expansions (initial_state starting_board).

(** Each turn of the loop counts one expansion, so the limit itself bounds
    the number of turns. *)
Definition greedy_best_first_search (starting_board : Board)
    (maximum_number_of_expansions : Z) : outcome search_result :=
  greedy_best_first_search_fuel (Z.to_nat maximum_number_of_expansions)
    starting_board maximum_number_of_expansions.

Definition default_maximum_number_of_expansions : Z := 100000.

(** ** Notions used in the statements *)

(** What one cell adds to the total. *)
Definition tile_cost (position tile_value : Z) : Z :=
  if tile_value =? 0 then 0 else tile_distance position tile_value.

(** The total of the cells of [b], the first of them at [position]. *)
Fixpoint manhattan_sum (b : list Z) (position : Z) : Z :=
  match b with
  | [] => 0
  | tile_value :: rest =>
      tile_cost position tile_value + manhattan_sum rest (position + 1)
  end.

(** The board with the cells [i] and [j] exchanged. *)
Definition exchange (b : list Z) (i j : nat) : list Z :=
  match b !! i, b !! j with
  | Some x, Some y => <[j := x]> (<[i := y]> b)
  | _, _ => b
  end.

(** The neighbors of a board whose blank is at cell [k]. *)
Definition neighbors_at (b : list Z) (k : nat) : list (list Z) :=
  (λ shift, exchange b k (Z.to_nat (Z.of_nat k + shift)))
    <$> possible_shifts (Z.of_nat k).

(** The four corners of the grid. *)
Definition corner_cell (k : nat) : Prop :=
  k = 0%nat ∨ k = 3%nat ∨ k = 12%nat ∨ k = 15%nat.

(** [n] is one slide away from [b]. *)
Definition is_neighbor (b n : list Z) : Prop :=
  ∃ neighbors, generate_all_neighbor_boards b = Returns neighbors
               ∧ n ∈ neighbors.

(** What holds of the registry, the parent links and the frontier all along
    a search from [start]. *)
Record tables_invariant (start : list Z) (boards : list (list Z))
    (parents frontier : list Z) : Prop := {
  inv_lengths : length parents = length boards;
  inv_start : boards !! O = Some start;
  inv_root : parents !! O = Some (-1);
  inv_valid : Forall valid_board boards;
  inv_NoDup : NoDup boards;
  inv_parent : ∀ (i : nat) p,
    i ≠ 0%nat → parents !! i = Some p →
    0 ≤ p < Z.of_nat i ∧ (p ∉ frontier)
    ∧ ∃ bp bi, boards !! Z.to_nat p = Some bp ∧ boards !! i = Some bi
               ∧ is_neighbor bp bi;
  inv_frontier : Forall (λ f, 0 ≤ f < Z.of_nat (length boards)) frontier;
  inv_frontier_NoDup : NoDup frontier
}.

(** [chain parents index c]: [c] lists [index], its parent, its parent's
    parent and so on down to entry 0, whose parent is -1. *)
Inductive chain (parents : list Z) : Z → list Z → Prop :=
  | chain_root :
      parents !! O = Some (-1) → chain parents 0 [0]
  | chain_link index parent c :
      0 ≤ parent < index →
      parents !! Z.to_nat index = Some parent →
      chain parents parent c →
      chain parents index (index :: c).

(** The boards a list of registry indices stands for, in reverse order. *)
Definition boards_along (boards : list (list Z)) (c : list Z)
    : list (list Z) :=
  (λ index, boards !!! Z.to_nat index) <$> reverse c.

(** Consecutive elements of [path] are related by [R]. *)
Definition consecutive {A : Type} (R : A → A → Prop) (path : list A) : Prop :=
  ∀ (k : nat) x y, path !! k = Some x → path !! S k = Some y → R x y.

(** The loop invariant: the tables' invariant, and the counter equal to the
    number of registry entries no longer in the frontier. *)
Definition search_invariant (start : list Z) (limit : Z) (st : search_state)
    : Prop :=
  tables_invariant start (list_of_all_boards st) (parent_index st)
    (frontier_indices st)
  ∧ number_of_expanded_boards st
    = Z.of_nat (length (list_of_all_boards st))
      - Z.of_nat (length (frontier_indices st))
  ∧ number_of_expanded_boards st ≤ Z.max 0 limit.

(** What holds of a returned result. *)
Definition result_ok (start : list Z) (r : option (list (list Z)) * Z)
    : Prop :=
  match r.1 with
  | None => True
  | Some path =>
      head path = Some start
      ∧ last path = Some GOAL_BOARD
      ∧ consecutive is_neighbor path
      ∧ NoDup path
      ∧ Z.of_nat (length path) ≤ r.2
  end.

Definition two_slides_away : list Z :=
  [1; 2; 3; 4; 5; 6; 7; 8; 9; 10; 11; 12; 13; 0; 14; 15].

Definition one_slide_away : list Z :=
  [1; 2; 3; 4; 5; 6; 7; 8; 9; 10; 11; 12; 13; 14; 0; 15].

Definition example_board : list Z :=
  [5; 1; 2; 3; 9; 6; 7; 4; 13; 10; 11; 8; 0; 14; 15; 12].

(** ** Notions used in the further properties *)

(** Two cells of the grid next to each other in a row or in a column. *)
Definition adjacent_cells (k j : nat) : Prop :=
  Z.abs (Z.of_nat k / 4 - Z.of_nat j / 4)
  + Z.abs (Z.of_nat k mod 4 - Z.of_nat j mod 4) = 1.

#[global] Instance adjacent_cells_dec k j : Decision (adjacent_cells k j) :=
  Z.eq_dec _ 1.

(** ** read_board_from_user *)

(** The line typed is an argument ([typed] is what [input] returns) and the
    prompts printed are left out.  The built-in [str.strip], [str.split]
    and [int] are parameters: whatever they do, the function does the
    following with what they give. *)
Section read_board.
Variable strip : string → string.
Variable split : string → list string.
Variable int : string → outcome Z.

(** [[int(x) for x in pieces]] *)
Fixpoint int_each (pieces : list string) : outcome (list Z) :=
  match pieces with
  | [] => Returns []
  | x :: rest => v ← int x; vs ← int_each rest; Returns (v :: vs)
  end.

Definition read_board_from_user (typed : string) : outcome (list Z) :=
  let user_input := strip typed in
  if bool_decide (user_input = EmptyString) then Returns example_board
  else
    let pieces := split user_input in
    if negb (bool_decide (length pieces = 16%nat)) then Raises ValueError
    else
      board ← int_each pieces;
      let sorted_board := merge_sort Z.le board in
      if negb (bool_decide (sorted_board = range 16)) then Raises ValueError
      else Returns board.

End read_board.

(** ** print_board_in_grid *)

(** [board[lo:hi]] for [0 <= lo <= hi]: the cells from [lo] up to [hi],
    as many as there are. *)
Definition slice {A : Type} (l : list A) (lo hi : Z) : list A :=
  take (Z.to_nat (hi - lo)) (drop (Z.to_nat lo) l).

Fixpoint spaces (n : nat) : string :=
  match n with
  | O => EmptyString
  | S n' => String " "%char (spaces n')
  end.

(** [f"{tile_value:3}"]: decimal digits, a minus sign if negative, padded
    on the left with spaces to three characters. *)
Definition format_width_3 (tile_value : Z) : string :=
  let digits := pretty tile_value in
  spaces (3 - String.length digits) +:+ digits.

(** One turn of the inner loop, [line] growing by one cell. *)
Definition print_cell (line : string) (tile_value : Z) : string :=
  if tile_value =? 0 then line +:+ "  ."%string
  else line +:+ format_width_3 tile_value.

(** The lines printed, in order: four rows and an empty line. *)
Definition print_board_in_grid (board : list Z) : list string :=
  ((λ row, foldl print_cell EmptyString (slice board (4 * row) (4 * row + 4)))
     <$> range 4)
  ++ [EmptyString].

(** What [print_board_in_grid] writes for one cell. *)
Definition cell_text (tile_value : Z) : string :=
  if tile_value =? 0 then "  ."%string else format_width_3 tile_value.

(** The text of a row of cells. *)
Definition row_text (cells : list Z) : string :=
  foldr (λ tile_value rest, cell_text tile_value +:+ rest) EmptyString cells.

(** ** Notions used in the statements about the loop's states *)

(** One turn of the outer loop that does not return: the loop condition
    holds at [st] and the body leaves the state [st']. *)
Definition search_turn (limit : Z) (st st' : search_state) : Prop :=
  loop_condition limit st = true ∧ search_step st = Returns (inr st').

(** The states the loop passes through on its way from the start board. *)
Definition search_reaches (start : list Z) (limit : Z) (st : search_state)
    : Prop :=
  rtc (search_turn limit) (initial_state start) st.

#[global] Instance valid_board_dec (b : list Z) : Decision (valid_board b) :=
  decide (b ≡ₚ range 16).

(** * Properties *)

(** ** Evaluation on concrete boards *)

Example goal_is_valid : is_valid_board GOAL_BOARD = true.
Proof. vm_compute. reflexivity. Qed.

Example manhattan_goal : compute_manhattan_total GOAL_BOARD = Returns 0.
Proof. vm_compute. reflexivity. Qed.

Example neighbors_goal :
  generate_all_neighbor_boards GOAL_BOARD
  = Returns [ [1;2;3;4;5;6;7;8;9;10;11;0;13;14;15;12];
              [1;2;3;4;5;6;7;8;9;10;11;12;13;14;0;15] ].
Proof. vm_compute. reflexivity. Qed.

Example search_goal :
  greedy_best_first_search GOAL_BOARD default_maximum_number_of_expansions
  = Returns (Some [GOAL_BOARD], 1).
Proof. vm_compute. reflexivity. Qed.

(** ** The list primitives *)

Section primitives.
Context {A : Type}.
Implicit Types (l : list A) (x : A) (i : Z) (n : nat).

Lemma getitem_nat l n x : l !! n = Some x → getitem l (Z.of_nat n) = Returns x.
Proof.
  intros Hl. pose proof (lookup_lt_Some _ _ _ Hl) as Hn. unfold getitem.
  destruct (Z.ltb_spec (Z.of_nat n) 0); [lia|].
  destruct (Z.ltb_spec (Z.of_nat n) 0); [lia|].
  destruct (Z.leb_spec (Z.of_nat (length l)) (Z.of_nat n)); [lia|].
  simpl. by rewrite Nat2Z.id, Hl.
Qed.

Lemma getitem_lookup l i x :
  0 ≤ i → l !! Z.to_nat i = Some x → getitem l i = Returns x.
Proof.
  intros Hi Hl. rewrite <-(Z2Nat.id i) by done. by apply getitem_nat.
Qed.

Lemma getitem_Returns l i x :
  0 ≤ i → getitem l i = Returns x →
  l !! Z.to_nat i = Some x ∧ i < Z.of_nat (length l).
Proof.
  intros Hi. unfold getitem.
  destruct (Z.ltb_spec i 0); [lia|].
  destruct (Z.ltb_spec i 0); [lia|].
  destruct (Z.leb_spec (Z.of_nat (length l)) i); simpl; [done|].
  destruct (l !! Z.to_nat i); naive_solver.
Qed.

Lemma setitem_insert l i x :
  0 ≤ i < Z.of_nat (length l) →
  setitem l i x = Returns (<[Z.to_nat i := x]> l).
Proof.
  intros Hi. unfold setitem.
  destruct (Z.ltb_spec i 0); [lia|].
  destruct (Z.ltb_spec i 0); [lia|].
  by destruct (Z.leb_spec (Z.of_nat (length l)) i); [lia|].
Qed.

Lemma pop_delete l i :
  0 ≤ i < Z.of_nat (length l) → pop l i = Returns (delete (Z.to_nat i) l).
Proof.
  intros Hi. unfold pop.
  destruct (Z.ltb_spec i 0); [lia|].
  destruct (Z.ltb_spec i 0); [lia|].
  by destruct (Z.leb_spec (Z.of_nat (length l)) i); [lia|].
Qed.
End primitives.

Lemma range_from_nil lo hi : hi ≤ lo → range_from lo hi = [].
Proof. intros. apply seqZ_nil. lia. Qed.

Lemma range_from_cons lo hi :
  lo < hi → range_from lo hi = lo :: range_from (lo + 1) hi.
Proof.
  intros. unfold range_from. rewrite seqZ_cons by lia.
  do 2 f_equal; lia.
Qed.

Lemma elem_of_range n v : v ∈ range n ↔ 0 ≤ v < n.
Proof. unfold range, range_from. rewrite elem_of_seqZ. lia. Qed.

(** Invariant rule for a [for] loop whose body cannot fail. *)
Lemma for_each_invariant {A S : Type} (I : S → Prop) (P : A → Prop)
    (body : S → A → outcome S) (xs : list A) (s : S) :
  (∀ s x, I s → P x → ∃ s', body s x = Returns s' ∧ I s') →
  Forall P xs → I s →
  ∃ s', for_each xs body s = Returns s' ∧ I s'.
Proof.
  intros Hbody Hxs. revert s.
  induction Hxs as [|x xs Hx _ IH]; intros s Hs; simpl; [by eauto|].
  destruct (Hbody s x Hs Hx) as (s' & -> & Hs'). simpl. by apply IH.
Qed.

(** [index] finds the first position of [v]. *)
Lemma index_from_Returns l v position :
  v ∈ l →
  ∃ k : nat, index_from l v position = Returns (position + Z.of_nat k)
             ∧ l !! k = Some v.
Proof.
  revert position. induction l as [|x l IH]; intros position Hv.
  { by apply elem_of_nil in Hv. }
  simpl. destruct (Z.eqb_spec x v) as [->|Hne].
  - exists 0%nat. split; [f_equal; lia|done].
  - apply elem_of_cons in Hv as [?|Hv]; [congruence|].
    destruct (IH (position + 1) Hv) as (k & -> & Hk).
    exists (S k). split; [f_equal; lia|done].
Qed.

(** ** Valid boards *)

Lemma is_valid_board_sound b : is_valid_board b = true → valid_board b.
Proof.
  unfold is_valid_board, valid_board. intros Hb%bool_decide_eq_true.
  rewrite <-Hb. symmetry. apply merge_sort_Permutation.
Qed.

Lemma range_16_Sorted : Sorted Z.le (range 16).
Proof. vm_compute. repeat constructor; discriminate. Qed.

(** The check and the predicate agree. *)
Lemma is_valid_board_spec b : is_valid_board b = true ↔ valid_board b.
Proof.
  split; [apply is_valid_board_sound|].
  unfold is_valid_board, valid_board. intros Hb. apply bool_decide_eq_true.
  apply (Sorted_unique Z.le).
  - apply Sorted_merge_sort, _.
  - apply range_16_Sorted.
  - by rewrite merge_sort_Permutation.
Qed.

Lemma valid_board_length b : valid_board b → length b = 16%nat.
Proof. intros Hb. by rewrite (Permutation_length Hb). Qed.

Lemma valid_board_NoDup b : valid_board b → NoDup b.
Proof. intros Hb. unfold valid_board in Hb. rewrite Hb. apply NoDup_seqZ. Qed.

Lemma valid_board_elem b v : valid_board b → v ∈ b ↔ 0 ≤ v < 16.
Proof. intros Hb. unfold valid_board in Hb. rewrite Hb. apply elem_of_range. Qed.

Lemma valid_board_lookup b (k : nat) v :
  valid_board b → b !! k = Some v → (k < 16)%nat ∧ 0 ≤ v < 16.
Proof.
  intros Hb Hk. split.
  - rewrite <-(valid_board_length b Hb). by eapply lookup_lt_Some.
  - apply (valid_board_elem b v Hb). by eapply list_elem_of_lookup_2.
Qed.

(** The blank of a valid board is where [index] finds it, and nowhere else. *)
Lemma valid_board_index b :
  valid_board b →
  ∃ k : nat, index b 0 = Returns (Z.of_nat k) ∧ b !! k = Some 0 ∧ (k < 16)%nat.
Proof.
  intros Hb.
  destruct (index_from_Returns b 0 0) as (k & Hk & Hbk).
  { apply (valid_board_elem b 0 Hb). lia. }
  exists k. split_and!; [done|done|].
  by apply (valid_board_lookup b k 0 Hb).
Qed.

(** ** compute_manhattan_total *)

Lemma tile_distance_nonneg position tile_value :
  0 ≤ tile_distance position tile_value.
Proof. unfold tile_distance. lia. Qed.

Lemma tile_distance_zero position tile_value :
  tile_distance position tile_value = 0 ↔ tile_value = position + 1.
Proof.
  unfold tile_distance. split.
  - intros H.
    pose proof (Z_div_mod_eq_full position 4).
    pose proof (Z_div_mod_eq_full (tile_value - 1) 4).
    lia.
  - intros ->. replace (position + 1 - 1) with position by lia. lia.
Qed.

Lemma tile_cost_nonneg position tile_value : 0 ≤ tile_cost position tile_value.
Proof.
  unfold tile_cost. destruct (tile_value =? 0); [lia|].
  apply tile_distance_nonneg.
Qed.

Lemma tile_cost_zero position tile_value :
  tile_cost position tile_value = 0
  ↔ tile_value = 0 ∨ tile_value = position + 1.
Proof.
  unfold tile_cost. destruct (Z.eqb_spec tile_value 0) as [->|Hne].
  - split; [by left|done].
  - rewrite tile_distance_zero. split; [by right|by intros [?|?]].
Qed.

Lemma manhattan_sum_nonneg b position : 0 ≤ manhattan_sum b position.
Proof.
  revert position. induction b as [|v b IH]; intros position; simpl; [lia|].
  pose proof (tile_cost_nonneg position v). specialize (IH (position + 1)). lia.
Qed.

Lemma manhattan_sum_zero b position :
  manhattan_sum b position = 0
  ↔ ∀ (k : nat) v, b !! k = Some v → tile_cost (position + Z.of_nat k) v = 0.
Proof.
  revert position. induction b as [|v b IH]; intros position; simpl.
  { split; [by intros _ k v' ?|done]. }
  pose proof (tile_cost_nonneg position v).
  pose proof (manhattan_sum_nonneg b (position + 1)).
  split.
  - intros Hsum [|k] v' Hk; simpl in Hk.
    + injection Hk as <-. replace (position + Z.of_nat 0) with position by lia. lia.
    + replace (position + Z.of_nat (S k)) with (position + 1 + Z.of_nat k) by lia.
      apply (proj1 (IH (position + 1))); [lia|done].
  - intros Hall.
    assert (tile_cost position v = 0) as ->.
    { specialize (Hall 0%nat v eq_refl).
      by replace (position + Z.of_nat 0) with position in Hall by lia. }
    rewrite (proj2 (IH (position + 1))); [done|].
    intros k v' Hk. specialize (Hall (S k) v' Hk).
    by replace (position + Z.of_nat (S k)) with (position + 1 + Z.of_nat k) in Hall by lia.
Qed.

Lemma manhattan_body_Returns b total_distance (k : nat) v :
  b !! k = Some v →
  manhattan_body b total_distance (Z.of_nat k)
  = Returns (total_distance + tile_cost (Z.of_nat k) v).
Proof.
  intros Hk. unfold manhattan_body, tile_cost.
  rewrite (getitem_nat _ _ _ Hk). simpl.
  destruct (v =? 0); f_equal; lia.
Qed.

(** The loop over the positions from [length done] on. *)
Lemma manhattan_loop (done rest : list Z) total_distance :
  for_each
    (range_from (Z.of_nat (length done))
       (Z.of_nat (length done) + Z.of_nat (length rest)))
    (manhattan_body (done ++ rest)) total_distance
  = Returns (total_distance + manhattan_sum rest (Z.of_nat (length done))).
Proof.
  revert done total_distance.
  induction rest as [|v rest IH]; intros done total_distance; simpl length.
  { rewrite range_from_nil by lia. simpl. f_equal; lia. }
  rewrite range_from_cons by lia. simpl.
  rewrite (manhattan_body_Returns _ _ _ v) by apply list_lookup_middle, eq_refl.
  simpl.
  specialize (IH (done ++ [v])
                (total_distance + tile_cost (Z.of_nat (length done)) v)).
  rewrite length_app, <-(assoc_L (++)) in IH. simpl in IH.
  replace (Z.of_nat (length done) + Z.of_nat (S (length rest)))
    with (Z.of_nat (length done + 1) + Z.of_nat (length rest)) by lia.
  replace (Z.of_nat (length done) + 1) with (Z.of_nat (length done + 1)) by lia.
  rewrite IH. f_equal. lia.
Qed.

Lemma compute_manhattan_total_sum b :
  length b = 16%nat → compute_manhattan_total b = Returns (manhattan_sum b 0).
Proof.
  intros Hb. pose proof (manhattan_loop [] b 0) as H.
  simpl in H. rewrite Hb in H. exact H.
Qed.

Lemma GOAL_BOARD_lookup (k : nat) v :
  GOAL_BOARD !! k = Some v ↔
  (k < 16)%nat ∧ v = if decide (k = 15%nat) then 0 else Z.of_nat k + 1.
Proof.
  split.
  - intros Hk.
    do 16 (destruct k as [|k]; [simplify_eq/=; split; [lia|reflexivity]|]).
    done.
  - intros [Hk ->]. do 16 (destruct k as [|k]; [reflexivity|]). lia.
Qed.

(** Only the goal has every tile at distance 0. *)
Lemma manhattan_sum_zero_goal b :
  valid_board b → manhattan_sum b 0 = 0 ↔ b = GOAL_BOARD.
Proof.
  intros Hb. split; [|by intros ->].
  rewrite manhattan_sum_zero. intros Hcost.
  assert (∀ (k : nat) v, b !! k = Some v → v = 0 ∨ v = Z.of_nat k + 1) as Hcell.
  { intros k v Hk. apply tile_cost_zero. by apply Hcost. }
  destruct (lookup_lt_is_Some_2 b 15) as [w Hw].
  { rewrite (valid_board_length b Hb). lia. }
  assert (w = 0) as ->.
  { destruct (Hcell _ _ Hw) as [?| ->]; [done|].
    apply (valid_board_lookup b) in Hw; [lia|done]. }
  apply list_eq. intros k.
  destruct (b !! k) as [v|] eqn:Hk.
  - symmetry. apply GOAL_BOARD_lookup.
    split; [by apply (valid_board_lookup b k v)|].
    case_decide as Hk15; subst.
    + congruence.
    + destruct (Hcell _ _ Hk) as [->|?]; [|done].
      destruct Hk15. apply (NoDup_lookup b k 15 0); auto using valid_board_NoDup.
  - apply lookup_ge_None in Hk. rewrite (valid_board_length b Hb) in Hk.
    symmetry. by apply lookup_ge_None.
Qed.

(** ** generate_all_neighbor_boards *)

(** Case analysis on a cell number below 16. *)
Ltac cell_cases_upto n k :=
  lazymatch n with
  | O => exfalso; lia
  | S ?n' =>
      let k' := fresh "k" in
      destruct k as [|k']; [|cell_cases_upto n' k']
  end.
Ltac cell_cases k := cell_cases_upto 16%nat k.

Lemma possible_shifts_in_grid (k : nat) shift :
  (k < 16)%nat → shift ∈ possible_shifts (Z.of_nat k) →
  0 ≤ Z.of_nat k + shift < 16 ∧ shift ≠ 0
  ∧ - shift ∈ possible_shifts (Z.of_nat k + shift).
Proof.
  intros Hk Hs. cell_cases k; vm_compute possible_shifts in Hs;
    repeat (apply elem_of_cons in Hs as [->|Hs]);
    try (by apply elem_of_nil in Hs);
    (split_and!; [lia|lia|done|vm_compute; set_solver]).
Qed.

Lemma possible_shifts_length (k : nat) :
  (k < 16)%nat →
  (2 ≤ length (possible_shifts (Z.of_nat k)) ≤ 4)%nat
  ∧ (length (possible_shifts (Z.of_nat k)) = 2%nat ↔ corner_cell k).
Proof.
  intros Hk. unfold corner_cell. cell_cases k; vm_compute length; lia.
Qed.

Lemma exchange_Permutation b i j : exchange b i j ≡ₚ b.
Proof.
  unfold exchange. destruct (b !! i) eqn:Hi, (b !! j) eqn:Hj; try done.
  by apply Permutation_insert_swap.
Qed.

Lemma exchange_valid b i j : valid_board b → valid_board (exchange b i j).
Proof. unfold valid_board. by rewrite exchange_Permutation. Qed.

Lemma exchange_lookup_r b i j x :
  b !! i = Some x → (j < length b)%nat → exchange b i j !! j = Some x.
Proof.
  intros Hi Hj. unfold exchange. rewrite Hi.
  destruct (lookup_lt_is_Some_2 b j Hj) as [y ->].
  apply list_lookup_insert_eq. by rewrite length_insert.
Qed.

Lemma exchange_exchange b i j :
  (i < length b)%nat → (j < length b)%nat →
  exchange (exchange b i j) j i = b.
Proof.
  intros Hi Hj.
  destruct (lookup_lt_is_Some_2 b i Hi) as [x Hx].
  destruct (lookup_lt_is_Some_2 b j Hj) as [y Hy].
  assert (exchange b i j = <[j := x]> (<[i := y]> b)) as ->.
  { unfold exchange. by rewrite Hx, Hy. }
  destruct (decide (i = j)) as [->|Hij].
  { assert (y = x) as -> by congruence.
    rewrite list_insert_insert_eq, (list_insert_id b j x) by done.
    unfold exchange. rewrite Hx.
    by rewrite list_insert_insert_eq, list_insert_id. }
  assert (<[j := x]> (<[i := y]> b) !! j = Some x) as Hj'.
  { apply list_lookup_insert_eq. by rewrite length_insert. }
  assert (<[j := x]> (<[i := y]> b) !! i = Some y) as Hi'.
  { rewrite list_lookup_insert_ne by done. by apply list_lookup_insert_eq. }
  unfold exchange. rewrite Hj', Hi'.
  apply list_eq. intros n.
  destruct (decide (n = i)) as [->|Hni].
  { rewrite list_lookup_insert_eq by (rewrite !length_insert; lia). done. }
  rewrite list_lookup_insert_ne by done.
  destruct (decide (n = j)) as [->|Hnj].
  { rewrite list_lookup_insert_eq by (rewrite !length_insert; lia). done. }
  by rewrite !list_lookup_insert_ne by done.
Qed.

Lemma slide_exchange b (i : nat) shift :
  (i < length b)%nat →
  0 ≤ Z.of_nat i + shift < Z.of_nat (length b) →
  slide b (Z.of_nat i) shift
  = Returns (exchange b i (Z.to_nat (Z.of_nat i + shift))).
Proof.
  intros Hi Hj.
  destruct (lookup_lt_is_Some_2 b i Hi) as [x Hx].
  destruct (lookup_lt_is_Some_2 b (Z.to_nat (Z.of_nat i + shift))) as [y Hy];
    [lia|].
  unfold slide, exchange. rewrite Hx, Hy.
  rewrite (getitem_nat _ _ _ Hx). simpl.
  rewrite (getitem_lookup _ _ _ (proj1 Hj) Hy). simpl.
  rewrite setitem_insert by lia. simpl.
  rewrite setitem_insert by (rewrite length_insert; lia).
  by rewrite Nat2Z.id.
Qed.

(** A loop that appends one computed element per turn builds a map. *)
Lemma for_each_append {A B : Type} (f : A → outcome B) (g : A → B)
    (xs : list A) (acc : list B) :
  (∀ x, x ∈ xs → f x = Returns (g x)) →
  for_each xs (λ acc x, y ← f x; Returns (acc ++ [y])) acc
  = Returns (acc ++ (g <$> xs)).
Proof.
  revert acc. induction xs as [|x xs IH]; intros acc Hf; simpl.
  { by rewrite (right_id_L [] (++)). }
  rewrite Hf by left. simpl. rewrite IH by (intros; apply Hf; by right).
  by rewrite <-(assoc_L (++)).
Qed.

Lemma generate_all_neighbor_boards_at b (k : nat) :
  valid_board b → b !! k = Some 0 →
  generate_all_neighbor_boards b = Returns (neighbors_at b k).
Proof.
  intros Hb Hk.
  destruct (valid_board_index b Hb) as (k' & Hindex & Hk' & _).
  assert (k' = k) as -> by (eapply NoDup_lookup; eauto using valid_board_NoDup).
  destruct (valid_board_lookup b k 0 Hb Hk) as [Hk16 _].
  pose proof (valid_board_length b Hb) as Hlen.
  unfold generate_all_neighbor_boards. rewrite Hindex. simpl.
  rewrite (for_each_append _
    (λ shift, exchange b k (Z.to_nat (Z.of_nat k + shift)))); [done|].
  intros shift Hshift. apply slide_exchange; [lia|].
  apply possible_shifts_in_grid in Hshift; lia.
Qed.

Lemma generate_all_neighbor_boards_valid b :
  valid_board b →
  ∃ k : nat, b !! k = Some 0 ∧ (k < 16)%nat
    ∧ generate_all_neighbor_boards b = Returns (neighbors_at b k).
Proof.
  intros Hb. destruct (valid_board_index b Hb) as (k & _ & Hk & Hk16).
  eauto using generate_all_neighbor_boards_at.
Qed.

Lemma neighbors_at_valid b k n :
  valid_board b → n ∈ neighbors_at b k → valid_board n.
Proof.
  intros Hb (shift & -> & _)%list_elem_of_fmap. by apply exchange_valid.
Qed.

(** Sliding back: the board is among the neighbors of each of its own. *)
Lemma neighbors_at_inverse b (k : nat) n :
  valid_board b → b !! k = Some 0 → n ∈ neighbors_at b k →
  ∃ j : nat, n !! j = Some 0 ∧ b ∈ neighbors_at n j.
Proof.
  intros Hb Hk (shift & -> & Hshift)%list_elem_of_fmap.
  destruct (valid_board_lookup b k 0 Hb Hk) as [Hk16 _].
  pose proof (valid_board_length b Hb) as Hlen.
  destruct (possible_shifts_in_grid k shift Hk16 Hshift) as (Hj & Hne & Hback).
  set (j := Z.to_nat (Z.of_nat k + shift)).
  exists j. split.
  { apply exchange_lookup_r; [done|lia]. }
  apply list_elem_of_fmap. exists (- shift). split.
  - replace (Z.to_nat (Z.of_nat j + - shift)) with k by lia.
    symmetry. apply exchange_exchange; lia.
  - by replace (Z.of_nat j) with (Z.of_nat k + shift) by lia.
Qed.

(** ** boards_are_equal and find_board_index *)

Lemma boards_agree_on_rest (done_a done_b rest_a rest_b : list Z) :
  length done_a = length done_b → length rest_a = length rest_b →
  boards_agree_on (done_a ++ rest_a) (done_b ++ rest_b)
    (range_from (Z.of_nat (length done_a))
       (Z.of_nat (length done_a) + Z.of_nat (length rest_a)))
  = Returns (bool_decide (rest_a = rest_b)).
Proof.
  revert done_a done_b rest_b.
  induction rest_a as [|x rest_a IH]; intros done_a done_b [|y rest_b] Hd Hr;
    simplify_eq/=.
  { by rewrite range_from_nil by lia. }
  rewrite range_from_cons by lia. simpl.
  rewrite (getitem_nat (done_a ++ x :: rest_a) _ x)
    by apply list_lookup_middle, eq_refl.
  simpl. rewrite Hd.
  rewrite (getitem_nat (done_b ++ y :: rest_b) _ y)
    by apply list_lookup_middle, eq_refl.
  simpl. destruct (Z.eqb_spec x y) as [->|Hne]; simpl.
  - specialize (IH (done_a ++ [y]) (done_b ++ [y]) rest_b).
    rewrite !length_app, <-!(assoc_L (++)) in IH. simpl in IH.
    replace (Z.of_nat (length done_b) + Z.of_nat (S (length rest_a)))
      with (Z.of_nat (length done_a + 1) + Z.of_nat (length rest_a)) by lia.
    replace (Z.of_nat (length done_b) + 1)
      with (Z.of_nat (length done_a + 1)) by lia.
    rewrite IH by lia. f_equal. apply bool_decide_ext. naive_solver.
  - f_equal. symmetry. apply bool_decide_eq_false_2. congruence.
Qed.

Lemma boards_are_equal_decide (a b : list Z) :
  length a = 16%nat → length b = 16%nat →
  boards_are_equal a b = Returns (bool_decide (a = b)).
Proof.
  intros Ha Hb. pose proof (boards_agree_on_rest [] [] a b) as H.
  simpl in H. rewrite Ha in H. apply H; congruence.
Qed.

Lemma find_board_among_rest (done rest : list (list Z)) (board : list Z) :
  Forall (λ b, length b = 16%nat) rest → length board = 16%nat →
  ∃ r, find_board_among (done ++ rest) board
         (range_from (Z.of_nat (length done))
            (Z.of_nat (length done) + Z.of_nat (length rest)))
       = Returns r
       ∧ (r = -1 ↔ board ∉ rest).
Proof.
  intros Hrest Hboard. revert done.
  induction Hrest as [|candidate rest Hc _ IH]; intros done; simpl.
  { rewrite range_from_nil by lia. simpl. eexists. split; [done|].
    split; [intros _; apply not_elem_of_nil|done]. }
  rewrite range_from_cons by lia. simpl.
  rewrite (getitem_nat _ _ candidate) by apply list_lookup_middle, eq_refl.
  simpl. rewrite boards_are_equal_decide by done. simpl.
  case_bool_decide as Heq.
  - subst. eexists. split; [done|]. split; [lia|].
    intros []. by left.
  - destruct (IH (done ++ [candidate])) as (r & Hr & Hiff).
    rewrite length_app, <-(assoc_L (++)) in Hr. simpl in Hr.
    exists r. split.
    + rewrite <-Hr. f_equal. unfold range_from. f_equal; lia.
    + rewrite Hiff, not_elem_of_cons. intuition congruence.
Qed.

Lemma find_board_index_absent (boards : list (list Z)) (board : list Z) :
  Forall valid_board boards → valid_board board →
  ∃ r, find_board_index boards board = Returns r ∧ (r = -1 ↔ board ∉ boards).
Proof.
  intros Hboards Hboard.
  apply (find_board_among_rest [] boards board).
  - eapply Forall_impl; [done|]. apply valid_board_length.
  - by apply valid_board_length.
Qed.

(** ** The search *)

Lemma getitem_in_range {A : Type} (l : list A) i :
  0 ≤ i < Z.of_nat (length l) →
  ∃ x, getitem l i = Returns x ∧ l !! Z.to_nat i = Some x.
Proof.
  intros Hi. destruct (lookup_lt_is_Some_2 l (Z.to_nat i)) as [x Hx]; [lia|].
  exists x. split; [|done]. apply getitem_lookup; [lia|done].
Qed.

Lemma initial_tables_invariant start :
  valid_board start → tables_invariant start [start] [-1] [0].
Proof.
  intros Hstart. split; try done.
  - by apply Forall_singleton.
  - apply NoDup_singleton.
  - intros [|[|i]] p Hi Hp; simplify_eq/=.
  - apply Forall_singleton. simpl. lia.
  - apply NoDup_singleton.
Qed.

Lemma record_neighbor_invariant start boards parents frontier best current n :
  tables_invariant start boards parents frontier →
  0 ≤ best → best ∉ frontier → boards !! Z.to_nat best = Some current →
  is_neighbor current n → valid_board n →
  ∃ boards' parents' frontier',
    record_neighbor best (boards, parents, frontier) n
    = Returns (boards', parents', frontier')
    ∧ tables_invariant start boards' parents' frontier'
    ∧ (best ∉ frontier')
    ∧ boards' !! Z.to_nat best = Some current
    ∧ Z.of_nat (length boards') - Z.of_nat (length frontier')
      = Z.of_nat (length boards) - Z.of_nat (length frontier).
Proof.
  intros [Hlen Hstart Hroot Hvalid Hnodup Hparent Hfrontier Hfnodup]
    Hbest0 Hbest Hcurrent Hn Hnvalid.
  pose proof (lookup_lt_Some _ _ _ Hcurrent) as Hbestlt.
  unfold record_neighbor.
  destruct (find_board_index_absent boards n Hvalid Hnvalid) as (r & -> & Hr).
  simpl. destruct (Z.eqb_spec r (-1)) as [Hnew|Hold]; last first.
  { eexists _, _, _. split_and!; done. }
  apply Hr in Hnew. clear r Hr.
  eexists _, _, _. split; [done|].
  rewrite !length_app. simpl.
  replace (Z.of_nat (length boards + 1) - 1)
    with (Z.of_nat (length boards)) by lia.
  assert (Z.of_nat (length boards) ∉ frontier) as Hfresh.
  { intros Hin. rewrite Forall_forall in Hfrontier.
    specialize (Hfrontier _ Hin). lia. }
  split_and!.
  - split.
    + rewrite !length_app. simpl. lia.
    + by apply lookup_app_l_Some.
    + by apply lookup_app_l_Some.
    + apply Forall_app. split; [done|by apply Forall_singleton].
    + apply NoDup_app. split_and!; [done| |apply NoDup_singleton].
      intros b Hb ->%list_elem_of_singleton. done.
    + intros i p Hi [Hp|[Hge Hp]]%lookup_app_Some.
      * destruct (Hparent i p Hi Hp) as (Hrange & Hnotin & bp & bi & ? & ? & ?).
        pose proof (lookup_lt_Some _ _ _ Hp).
        split_and!; [lia..| |].
        { rewrite not_elem_of_app, list_elem_of_singleton. split; [done|lia]. }
        exists bp, bi. split_and!; [by apply lookup_app_l_Some..|done].
      * apply list_lookup_singleton_Some in Hp as [Hi0 <-].
        assert (i = length boards) as -> by lia.
        split_and!; [lia..| |].
        { rewrite not_elem_of_app, list_elem_of_singleton. split; [done|lia]. }
        exists current, n. split_and!; [by apply lookup_app_l_Some| |done].
        by apply list_lookup_middle.
    + apply Forall_app. split.
      * eapply Forall_impl; [done|]. simpl. intros; rewrite length_app; simpl; lia.
      * apply Forall_singleton. rewrite length_app. simpl. lia.
    + apply NoDup_app. split_and!; [done| |apply NoDup_singleton].
      intros f Hf ->%list_elem_of_singleton. done.
  - rewrite not_elem_of_app, list_elem_of_singleton. split; [done|lia].
  - by apply lookup_app_l_Some.
  - lia.
Qed.

(** A frontier entry names a valid board of the registry. *)
Lemma frontier_entry boards (frontier : list Z) f :
  Forall valid_board boards →
  Forall (λ f, 0 ≤ f < Z.of_nat (length boards)) frontier →
  f ∈ frontier →
  ∃ b, getitem boards f = Returns b ∧ boards !! Z.to_nat f = Some b
       ∧ valid_board b ∧ 0 ≤ f.
Proof.
  intros Hvalid Hfrontier Hf. rewrite Forall_forall in Hfrontier.
  specialize (Hfrontier f Hf).
  destruct (getitem_in_range boards f Hfrontier) as (b & Hget & Hb).
  exists b. split_and!; [done..| |lia].
  rewrite Forall_forall in Hvalid. apply Hvalid.
  by eapply list_elem_of_lookup_2.
Qed.

(** The selection yields a position of the frontier and the entry there. *)
Lemma select_best_Returns boards (frontier : list Z) :
  Forall valid_board boards →
  Forall (λ f, 0 ≤ f < Z.of_nat (length boards)) frontier →
  (0 < length frontier)%nat →
  ∃ (position : nat) best,
    select_best boards frontier = Returns (Z.of_nat position, best)
    ∧ frontier !! position = Some best.
Proof.
  intros Hvalid Hfrontier Hne.
  destruct (lookup_lt_is_Some_2 frontier 0 Hne) as [f0 Hf0].
  destruct (frontier_entry boards frontier f0 Hvalid Hfrontier)
    as (b0 & Hb0 & _ & Hb0valid & _); [by eapply list_elem_of_lookup_2|].
  unfold select_best.
  rewrite (getitem_lookup frontier 0 f0) by done. simpl. rewrite Hb0. simpl.
  rewrite compute_manhattan_total_sum by by apply valid_board_length. simpl.
  destruct (for_each_invariant
    (λ best : Z * Z * Z,
       ∃ position : nat, best.2 = Z.of_nat position
                         ∧ frontier !! position = Some best.1.2)
    (λ position, 0 ≤ position < Z.of_nat (length frontier))
    (selection_body boards frontier)
    (range_from 1 (Z.of_nat (length frontier)))
    (manhattan_sum b0 0, f0, 0)) as ([[score best] pos] & -> & position & Hpos & Hbest).
  - intros [[score best] pos] position (k & Hk & Hbest) Hposition.
    simpl in Hk, Hbest. subst pos. unfold selection_body.
    destruct (getitem_in_range frontier position Hposition) as (f & -> & Hf).
    simpl.
    destruct (frontier_entry boards frontier f Hvalid Hfrontier)
      as (b & -> & _ & Hbvalid & _); [by eapply list_elem_of_lookup_2|].
    simpl.
    rewrite compute_manhattan_total_sum by by apply valid_board_length. simpl.
    destruct (manhattan_sum b 0 <? score); eexists; (split; [done|]); simpl.
    + exists (Z.to_nat position). split; [lia|done].
    + by exists k.
  - apply Forall_seqZ. intros; lia.
  - by exists 0%nat.
  - simpl in Hpos, Hbest. subst pos. simpl. by exists position, best.
Qed.

(** ** Path reconstruction *)

Lemma walk_parents_done fuel parents path_indices :
  walk_parents fuel parents (-1) path_indices = Returns path_indices.
Proof. by destruct fuel. Qed.

Lemma walk_parents_chain parents :
  parents !! O = Some (-1) →
  (∀ (i : nat) p, i ≠ 0%nat → parents !! i = Some p → 0 ≤ p < Z.of_nat i) →
  ∀ fuel index path_indices,
    0 ≤ index < Z.of_nat (length parents) → (Z.to_nat index < fuel)%nat →
    ∃ c, walk_parents fuel parents index path_indices
         = Returns (path_indices ++ c)
         ∧ chain parents index c.
Proof.
  intros Hroot Hback fuel.
  induction fuel as [|fuel IH]; intros index path_indices Hindex Hfuel; [lia|].
  simpl. destruct (Z.eqb_spec index (-1)) as [?|_]; [lia|]. simpl.
  destruct (getitem_in_range parents index Hindex) as (parent & -> & Hparent).
  simpl. destruct (decide (index = 0)) as [->|Hne].
  - assert (parent = -1) as ->.
    { change (Z.to_nat 0) with O in Hparent. congruence. }
    rewrite walk_parents_done. exists [0]. split; [done|by constructor].
  - destruct (Hback (Z.to_nat index) parent) as [Hp0 Hp1]; [lia|done|].
    destruct (IH parent (path_indices ++ [index])) as (c & -> & Hc); [lia..|].
    exists (index :: c). split; [by rewrite <-(assoc_L (++))|].
    apply chain_link with parent; [lia|done..].
Qed.

Lemma chain_bounds parents index c :
  chain parents index c → Forall (λ x, 0 ≤ x ≤ index) c.
Proof.
  induction 1 as [|index parent c Hlt _ _ IH].
  - apply Forall_singleton. lia.
  - constructor; [lia|]. eapply Forall_impl; [done|]. simpl. intros; lia.
Qed.

Lemma chain_NoDup parents index c : chain parents index c → NoDup c.
Proof.
  induction 1 as [|index parent c Hlt _ Hc IH]; [apply NoDup_singleton|].
  constructor; [|done]. intros Hin.
  apply chain_bounds in Hc. rewrite Forall_forall in Hc.
  specialize (Hc _ Hin). lia.
Qed.

Lemma boards_along_cons boards index c :
  boards_along boards (index :: c)
  = boards_along boards c ++ [boards !!! Z.to_nat index].
Proof. unfold boards_along. by rewrite reverse_cons, fmap_app. Qed.

Lemma boards_along_length boards c :
  length (boards_along boards c) = length c.
Proof. unfold boards_along. by rewrite length_fmap, length_reverse. Qed.

(** The boards along a chain form a path from the start to the board the
    chain begins at. *)
Lemma chain_path start boards parents frontier index c :
  tables_invariant start boards parents frontier →
  chain parents index c → index ∉ frontier →
  is_Some (boards !! Z.to_nat index) →
  head (boards_along boards c) = Some start
  ∧ last (boards_along boards c) = boards !! Z.to_nat index
  ∧ consecutive is_neighbor (boards_along boards c)
  ∧ Forall (λ x, x ∉ frontier) c
  ∧ (∀ b, b ∈ boards_along boards c →
       ∃ x, 0 ≤ x ≤ index ∧ boards !! Z.to_nat x = Some b)
  ∧ NoDup (boards_along boards c).
Proof.
  intros Hinv Hchain.
  induction Hchain as [_|index parent c Hlt Hparent _ IH]; intros Hout Hin.
  - assert (boards_along boards [0] = [start]) as ->.
    { unfold boards_along. simpl. f_equal.
      apply list_lookup_total_correct, Hinv. }
    split_and!.
    + done.
    + symmetry. apply Hinv.
    + intros k x y Hx Hy. destruct k; simplify_eq/=.
    + by apply Forall_singleton.
    + intros b ->%list_elem_of_singleton. exists 0. split; [lia|apply Hinv].
    + apply NoDup_singleton.
  - destruct (inv_parent _ _ _ _ Hinv (Z.to_nat index) parent)
      as (_ & Hpout & bp & bi & Hbp & Hbi & Hslide); [lia|done|].
    destruct IH as (Hhead & Hlast & Hcons & Hfront & Hmem & Hnodup);
      [done|by eexists|].
    rewrite boards_along_cons, (list_lookup_total_correct _ _ _ Hbi).
    set (path := boards_along boards c) in *.
    split_and!.
    + destruct path; [done|]. done.
    + by rewrite last_snoc.
    + intros k x y Hx [Hy|[Hge Hy]]%lookup_app_Some.
      * apply (Hcons k x y); [|done].
        pose proof (lookup_lt_Some _ _ _ Hy).
        by rewrite lookup_app_l in Hx by lia.
      * apply list_lookup_singleton_Some in Hy as [Hk <-].
        assert (path !! k = Some bp) as Hk'.
        { rewrite <-Hbp, <-Hlast, last_lookup. f_equal. lia. }
        pose proof (lookup_lt_Some _ _ _ Hk').
        rewrite lookup_app_l in Hx by lia. by simplify_eq.
    + by constructor.
    + intros b [Hb| ->%list_elem_of_singleton]%elem_of_app.
      * destruct (Hmem b Hb) as (x & ? & ?). exists x. split; [lia|done].
      * exists index. split; [lia|done].
    + apply NoDup_app. split_and!; [done| |apply NoDup_singleton].
      intros b Hb ->%list_elem_of_singleton.
      destruct (Hmem _ Hb) as (x & Hx & Hxb).
      assert (Z.to_nat x = Z.to_nat index); [|lia].
      eapply NoDup_lookup; [apply Hinv|done..].
Qed.

(** Indices outside the frontier are no more than the registry has beyond
    the frontier's length. *)
Lemma outside_frontier_length (c frontier : list Z) (n : nat) :
  NoDup c → NoDup frontier →
  Forall (λ x, 0 ≤ x < Z.of_nat n) c →
  Forall (λ f, 0 ≤ f < Z.of_nat n) frontier →
  Forall (λ x, x ∉ frontier) c →
  (length c + length frontier ≤ n)%nat.
Proof.
  intros Hc Hf Hcn Hfn Hout.
  rewrite <-length_app, <-(Nat2Z.id n), <-(length_seqZ 0).
  apply submseteq_length, NoDup_submseteq.
  - apply NoDup_app. split_and!; [done| |done].
    intros x Hx. rewrite Forall_forall in Hout. by apply Hout.
  - intros x [Hx|Hx]%elem_of_app; apply elem_of_seqZ.
    + rewrite Forall_forall in Hcn. specialize (Hcn x Hx). lia.
    + rewrite Forall_forall in Hfn. specialize (Hfn x Hx). lia.
Qed.

Lemma reconstruct_path_Returns start boards parents frontier best goal :
  tables_invariant start boards parents frontier →
  0 ≤ best → best ∉ frontier → boards !! Z.to_nat best = Some goal →
  ∃ path, reconstruct_path boards parents best = Returns path
    ∧ head path = Some start
    ∧ last path = Some goal
    ∧ consecutive is_neighbor path
    ∧ NoDup path
    ∧ (length path + length frontier ≤ length boards)%nat.
Proof.
  intros Hinv Hbest0 Hout Hgoal.
  pose proof (lookup_lt_Some _ _ _ Hgoal) as Hlt.
  destruct (walk_parents_chain parents (inv_root _ _ _ _ Hinv)) with
    (fuel := length parents) (index := best) (path_indices := @nil Z)
    as (c & Hwalk & Hchain).
  { intros i p Hi Hp. by destruct (inv_parent _ _ _ _ Hinv i p Hi Hp). }
  { rewrite (inv_lengths _ _ _ _ Hinv). lia. }
  { rewrite (inv_lengths _ _ _ _ Hinv). lia. }
  pose proof (chain_bounds _ _ _ Hchain) as Hbounds.
  destruct (chain_path start boards parents frontier best c)
    as (Hhead & Hlast & Hcons & Hfront & _ & Hnodup); [done..|by eexists|].
  exists (boards_along boards c).
  unfold reconstruct_path. rewrite Hwalk. simpl.
  split_and!; [|done|congruence|done|done|].
  - rewrite (for_each_append _ (λ index, boards !!! Z.to_nat index)); [done|].
    intros x Hx. rewrite elem_of_reverse in Hx.
    rewrite Forall_forall in Hbounds. specialize (Hbounds x Hx).
    destruct (getitem_in_range boards x) as (b & -> & Hb); [lia|].
    by rewrite (list_lookup_total_correct _ _ _ Hb).
  - rewrite boards_along_length.
    apply outside_frontier_length;
      [by eapply chain_NoDup|apply Hinv| |apply Hinv|done].
    eapply Forall_impl; [exact Hbounds|]. simpl. intros; lia.
Qed.

(** ** The loop *)

Lemma pop_invariant start boards parents (frontier : list Z) (position : nat)
    best :
  tables_invariant start boards parents frontier →
  frontier !! position = Some best →
  tables_invariant start boards parents (delete position frontier)
  ∧ (best ∉ delete position frontier)
  ∧ Z.of_nat (length (delete position frontier))
    = Z.of_nat (length frontier) - 1.
Proof.
  intros [Hlen Hstart Hroot Hvalid Hnodup Hparent Hfrontier Hfnodup] Hbest.
  pose proof (delete_Permutation frontier position best Hbest) as Hperm.
  rewrite Hperm in Hfnodup, Hfrontier.
  apply NoDup_cons in Hfnodup as [Hout Hfnodup].
  apply Forall_cons in Hfrontier as [_ Hfrontier].
  split_and!; [split; try done| done |].
  - intros i p Hi Hp.
    destruct (Hparent i p Hi Hp) as (? & Hpout & ?). split_and!; [lia..| |done].
    intros Hin. by apply Hpout, list_elem_of_delete_inv with position.
  - rewrite length_delete by by eexists.
    pose proof (lookup_lt_Some _ _ _ Hbest). lia.
Qed.

Lemma search_step_invariant start limit st :
  search_invariant start limit st → loop_condition limit st = true →
  ∃ next, search_step st = Returns next
    ∧ match next with
      | inl r =>
          result_ok start r ∧ r.2 = number_of_expanded_boards st + 1
      | inr st' =>
          search_invariant start limit st'
          ∧ number_of_expanded_boards st'
            = number_of_expanded_boards st + 1
      end.
Proof.
  destruct st as [boards parents frontier expanded].
  unfold search_invariant, loop_condition, search_step. simpl.
  intros (Hinv & Hcount & Hmax) [Hne Hlimit]%andb_prop.
  apply Z.ltb_lt in Hne, Hlimit.
  destruct (select_best_Returns boards frontier)
    as (position & best & -> & Hbest);
    [apply Hinv..|lia|]. simpl.
  pose proof (lookup_lt_Some _ _ _ Hbest) as Hposition.
  rewrite pop_delete by lia. simpl. rewrite Nat2Z.id.
  destruct (frontier_entry boards frontier best)
    as (current & -> & Hcurrent & Hvalid & Hbest0);
    [apply Hinv..|by eapply list_elem_of_lookup_2|]. simpl.
  destruct (pop_invariant _ _ _ _ _ _ Hinv Hbest) as (Hinv' & Hout & Hlen').
  rewrite boards_are_equal_decide
    by first [reflexivity|by apply valid_board_length].
  simpl. case_bool_decide as Hgoal.
  - destruct (reconstruct_path_Returns start boards parents
                (delete position frontier) best current)
      as (path & -> & Hhead & Hlast & Hcons & Hnodup & Hlength); [done..|].
    simpl. eexists. split; [done|]. simpl. split; [|done].
    unfold result_ok. simpl. split_and!; [done|congruence|done|done|lia].
  - destruct (generate_all_neighbor_boards_valid current Hvalid)
      as (k & Hk & _ & Hneighbors).
    rewrite Hneighbors. simpl.
    destruct (for_each_invariant
      (λ t : list (list Z) * list Z * list Z,
         tables_invariant start t.1.1 t.1.2 t.2
         ∧ (best ∉ t.2)
         ∧ t.1.1 !! Z.to_nat best = Some current
         ∧ Z.of_nat (length t.1.1) - Z.of_nat (length t.2)
           = Z.of_nat (length boards)
             - Z.of_nat (length (delete position frontier)))
      (λ n, is_neighbor current n ∧ valid_board n)
      (record_neighbor best) (neighbors_at current k)
      (boards, parents, delete position frontier))
      as ([[boards' parents'] frontier'] & -> & Hinv'' & _ & _ & Hlen'').
    + intros [[boards0 parents0] frontier0] n (H0 & Hout0 & Hcur0 & Hlen0)
        [Hslide Hnvalid]. simpl in H0, Hout0, Hcur0, Hlen0.
      destruct (record_neighbor_invariant start boards0 parents0 frontier0
                  best current n)
        as (boards1 & parents1 & frontier1 & -> & H1 & Hout1 & Hcur1 & Hlen1);
        [done..|].
      eexists. split; [done|]. simpl. split_and!; [done..|lia].
    + apply Forall_forall. intros n Hn. split.
      * by exists (neighbors_at current k).
      * by eapply neighbors_at_valid.
    + simpl. split_and!; done.
    + simpl in *. eexists. split; [done|]. simpl.
      split; [|done]. split_and!; [done|lia|lia].
Qed.

Lemma search_loop_invariant start limit fuel st :
  search_invariant start limit st →
  match search_loop fuel limit st with
  | Returns r => result_ok start r ∧ r.2 ≤ Z.max 0 limit
  | Raises _ => False
  | OutOfFuel => (fuel < Z.to_nat (limit - number_of_expanded_boards st))%nat
  end.
Proof.
  revert st. induction fuel as [|fuel IH]; intros st Hinv; simpl;
    destruct (loop_condition limit st) eqn:Hcond;
    try (split; [done|apply Hinv]).
  - apply andb_prop in Hcond as [_ Hlimit%Z.ltb_lt]. lia.
  - destruct (search_step_invariant start limit st Hinv Hcond)
      as ([r|st'] & -> & Hnext); simpl.
    + destruct Hnext as [Hr Hcount]. split; [done|].
      apply andb_prop in Hcond as [_ Hlimit%Z.ltb_lt]. lia.
    + destruct Hnext as [Hinv' Hcount]. specialize (IH st' Hinv').
      destruct (search_loop fuel limit st'); [done..|]. lia.
Qed.

Lemma initial_state_invariant start limit :
  valid_board start → search_invariant start limit (initial_state start).
Proof.
  intros Hstart. split_and!; simpl; [|done|lia].
  by apply initial_tables_invariant.
Qed.

(** More fuel does not change a result. *)
Lemma search_loop_fuel_mono fuel fuel' limit st r :
  (fuel ≤ fuel')%nat →
  search_loop fuel limit st = Returns r →
  search_loop fuel' limit st = Returns r.
Proof.
  revert fuel' st. induction fuel as [|fuel IH]; intros fuel' st Hle; simpl;
    destruct (loop_condition limit st) eqn:Hcond;
    destruct fuel' as [|fuel']; simpl; rewrite ?Hcond; try done; try lia.
  destruct (search_step st) as [[r'|st']| |]; simpl; try done.
  apply IH. lia.
Qed.

(** Each turn of the loop that does not raise counts one expansion. *)
Lemma search_step_counts st next :
  search_step st = Returns next →
  match next with
  | inl r => r.2 = number_of_expanded_boards st + 1
  | inr st' => number_of_expanded_boards st'
               = number_of_expanded_boards st + 1
  end.
Proof.
  unfold search_step.
  destruct (select_best _ _) as [[position best]| |]; simpl; [|done..].
  destruct (pop _ _) as [frontier| |]; simpl; [|done..].
  destruct (getitem _ _) as [current| |]; simpl; [|done..].
  destruct (boards_are_equal _ _) as [[]| |]; simpl; [| |done..].
  - destruct (reconstruct_path _ _ _) as [path| |]; simpl; [|done..].
    by intros [= <-].
  - destruct (generate_all_neighbor_boards _) as [neighbors| |]; simpl;
      [|done..].
    destruct (for_each _ _ _) as [t| |]; simpl; [|done..].
    by intros [= <-].
Qed.

(** ** The search as a whole *)

Lemma greedy_best_first_search_fuel_ok fuel start limit r :
  valid_board start →
  greedy_best_first_search_fuel fuel start limit = Returns r →
  result_ok start r ∧ r.2 ≤ Z.max 0 limit.
Proof.
  intros Hstart Hr.
  pose proof (search_loop_invariant start limit fuel (initial_state start)
                (initial_state_invariant start limit Hstart)) as H.
  unfold greedy_best_first_search_fuel in Hr. by rewrite Hr in H.
Qed.

Lemma greedy_best_first_search_ok start limit path count :
  valid_board start →
  greedy_best_first_search start limit = Returns (Some path, count) →
  head path = Some start
  ∧ last path = Some GOAL_BOARD
  ∧ consecutive is_neighbor path
  ∧ NoDup path
  ∧ Z.of_nat (length path) ≤ count.
Proof.
  intros Hstart Hr.
  by destruct (greedy_best_first_search_fuel_ok _ _ _ _ Hstart Hr) as [? _].
Qed.

(** C1: when the search from a valid board returns a path, the path is not
    empty, begins with the start board, ends with the goal board, and each
    of its boards is among the neighbors of the board before it. *)
Theorem greedy_path_correct start limit path count :
  valid_board start →
  greedy_best_first_search start limit = Returns (Some path, count) →
  path ≠ []
  ∧ head path = Some start
  ∧ last path = Some GOAL_BOARD
  ∧ consecutive is_neighbor path.
Proof.
  intros Hstart Hr.
  destruct (greedy_best_first_search_ok _ _ _ _ Hstart Hr)
    as (Hhead & Hlast & Hcons & _).
  split_and!; [|done..]. by intros ->.
Qed.

Lemma greedy_path_correct_witness :
  valid_board two_slides_away
  ∧ greedy_best_first_search two_slides_away 100000
    = Returns (Some [two_slides_away; one_slide_away; GOAL_BOARD], 3)
  ∧ [two_slides_away; one_slide_away; GOAL_BOARD] ≠ []
  ∧ head [two_slides_away; one_slide_away; GOAL_BOARD] = Some two_slides_away
  ∧ last [two_slides_away; one_slide_away; GOAL_BOARD] = Some GOAL_BOARD
  ∧ consecutive is_neighbor [two_slides_away; one_slide_away; GOAL_BOARD].
Proof.
  split; [apply is_valid_board_sound; vm_compute; reflexivity|].
  split; [vm_compute; reflexivity|].
  apply (greedy_path_correct two_slides_away 100000 _ 3).
  - apply is_valid_board_sound. vm_compute. reflexivity.
  - vm_compute. reflexivity.
Defined.

(** C2: on a valid board the Manhattan total is computed, is not negative,
    and is 0 exactly when the board is the goal board. *)
Theorem manhattan_zero_iff_goal b :
  valid_board b →
  ∃ total, compute_manhattan_total b = Returns total
    ∧ 0 ≤ total
    ∧ (total = 0 ↔ b = GOAL_BOARD).
Proof.
  intros Hb. exists (manhattan_sum b 0). split_and!.
  - by apply compute_manhattan_total_sum, valid_board_length.
  - apply manhattan_sum_nonneg.
  - by apply manhattan_sum_zero_goal.
Qed.

Lemma manhattan_zero_iff_goal_witness :
  valid_board example_board
  ∧ ∃ total, compute_manhattan_total example_board = Returns total
      ∧ 0 ≤ total
      ∧ (total = 0 ↔ example_board = GOAL_BOARD).
Proof.
  split; [apply is_valid_board_sound; vm_compute; reflexivity|].
  apply (manhattan_zero_iff_goal example_board).
  apply is_valid_board_sound. vm_compute. reflexivity.
Defined.

Lemma search_two_slides_away :
  greedy_best_first_search two_slides_away default_maximum_number_of_expansions
  = Returns (Some [two_slides_away; one_slide_away; GOAL_BOARD], 3).
Proof. vm_compute. reflexivity. Qed.

(** C3, as stated: the search from [1,...,13,0,14,15] does not return the
    two-board path with one expansion. *)
Lemma one_slide_example_fails :
  greedy_best_first_search two_slides_away default_maximum_number_of_expansions
  ≠ Returns (Some [two_slides_away; GOAL_BOARD], 1).
Proof. rewrite search_two_slides_away. intros [=]. Qed.

(** C3, amended: the board [1,...,13,0,14,15] is two slides from the goal;
    with the default limit the search returns the path of three boards
    (the start, the board with tile 14 slid left, the goal), and the
    expansion count 3. *)
Theorem two_slides_example :
  greedy_best_first_search two_slides_away default_maximum_number_of_expansions
  = Returns (Some [two_slides_away; one_slide_away; GOAL_BOARD], 3)
  ∧ length [two_slides_away; one_slide_away; GOAL_BOARD] = 3%nat
  ∧ ¬ is_neighbor two_slides_away GOAL_BOARD.
Proof.
  split_and!; [apply search_two_slides_away|done|].
  intros (neighbors & Hn & Hin). vm_compute in Hn. injection Hn as <-.
  repeat (apply elem_of_cons in Hin as [[=]|Hin]).
  by apply elem_of_nil in Hin.
Qed.

(** C4, as stated: with the limit -1 the search from the goal board returns
    the count 0, which exceeds the limit. *)
Lemma count_exceeds_negative_limit :
  valid_board GOAL_BOARD
  ∧ greedy_best_first_search GOAL_BOARD (-1) = Returns (None, 0)
  ∧ ¬ (∃ result, greedy_best_first_search GOAL_BOARD (-1) = Returns result
                 ∧ result.2 ≤ -1).
Proof.
  split; [apply is_valid_board_sound; vm_compute; reflexivity|].
  split; [reflexivity|].
  intros (result & Hresult & Hcount).
  assert (result = (None, 0)) as -> by (vm_compute in Hresult; congruence).
  simpl in Hcount. lia.
Qed.

(** C4, amended: from a valid board and with any limit the search returns;
    as many turns of the loop as the larger of 0 and the limit are enough,
    each turn counts one expansion, and the count returned is at most the
    larger of 0 and the limit. *)
Theorem search_terminates_within_limit start limit :
  valid_board start →
  ∃ result,
    greedy_best_first_search start limit = Returns result
    ∧ (∀ fuel, (Z.to_nat (Z.max 0 limit) ≤ fuel)%nat →
         greedy_best_first_search_fuel fuel start limit = Returns result)
    ∧ (∀ st next, search_step st = Returns next →
         match next with
         | inl r => r.2 = number_of_expanded_boards st + 1
         | inr st' => number_of_expanded_boards st'
                      = number_of_expanded_boards st + 1
         end)
    ∧ result.2 ≤ Z.max 0 limit.
Proof.
  intros Hstart.
  pose proof (search_loop_invariant start limit (Z.to_nat limit)
                (initial_state start)
                (initial_state_invariant start limit Hstart)) as H.
  unfold greedy_best_first_search, greedy_best_first_search_fuel.
  destruct (search_loop _ _ _) as [result| |] eqn:Hresult;
    [|done|simpl in H; lia].
  exists result. split_and!; [done| |apply search_step_counts|apply H].
  intros fuel Hfuel. eapply search_loop_fuel_mono; [|done]. lia.
Qed.

Lemma search_terminates_within_limit_witness :
  valid_board example_board
  ∧ ∃ result,
      greedy_best_first_search example_board 25 = Returns result
      ∧ (∀ fuel, (Z.to_nat (Z.max 0 25) ≤ fuel)%nat →
           greedy_best_first_search_fuel fuel example_board 25
           = Returns result)
      ∧ (∀ st next, search_step st = Returns next →
           match next with
           | inl r => r.2 = number_of_expanded_boards st + 1
           | inr st' => number_of_expanded_boards st'
                        = number_of_expanded_boards st + 1
           end)
      ∧ result.2 ≤ Z.max 0 25.
Proof.
  split; [apply is_valid_board_sound; vm_compute; reflexivity|].
  apply (search_terminates_within_limit example_board 25).
  apply is_valid_board_sound. vm_compute. reflexivity.
Defined.

(** A negative limit leaves the loop unentered: no path, count 0. *)
Lemma negative_limit_no_path start limit :
  limit ≤ 0 → greedy_best_first_search start limit = Returns (None, 0).
Proof.
  intros Hlimit. unfold greedy_best_first_search, greedy_best_first_search_fuel.
  replace (Z.to_nat limit) with O by lia. simpl.
  unfold loop_condition. simpl.
  by destruct (Z.ltb_spec 0 limit); [lia|].
Qed.

(** C5: with the limit 0 the search returns no path and the count 0,
    whatever the start board, the goal board included, and however much
    fuel the loop is given. *)
Theorem zero_limit_no_path start :
  greedy_best_first_search start 0 = Returns (None, 0)
  ∧ greedy_best_first_search GOAL_BOARD 0 = Returns (None, 0)
  ∧ ∀ fuel, greedy_best_first_search_fuel fuel start 0 = Returns (None, 0).
Proof.
  split_and!; [done..|]. by intros [|fuel].
Qed.

(** C6: a valid board has between 1 and 4 neighbors, and never fewer than
    2; it has 2 exactly when its blank is at a corner. *)
Theorem neighbor_count b :
  valid_board b →
  ∃ neighbors (k : nat),
    generate_all_neighbor_boards b = Returns neighbors
    ∧ b !! k = Some 0
    ∧ (1 ≤ length neighbors ≤ 4)%nat
    ∧ (2 ≤ length neighbors)%nat
    ∧ (length neighbors = 2%nat ↔ corner_cell k).
Proof.
  intros Hb.
  destruct (generate_all_neighbor_boards_valid b Hb) as (k & Hk & Hk16 & ->).
  exists (neighbors_at b k), k. unfold neighbors_at. rewrite length_fmap.
  destruct (possible_shifts_length k Hk16) as [Hlen Hcorner].
  split_and!; [done|done|lia..|done].
Qed.

Lemma neighbor_count_witness :
  valid_board example_board
  ∧ ∃ neighbors (k : nat),
      generate_all_neighbor_boards example_board = Returns neighbors
      ∧ example_board !! k = Some 0
      ∧ (1 ≤ length neighbors ≤ 4)%nat
      ∧ (2 ≤ length neighbors)%nat
      ∧ (length neighbors = 2%nat ↔ corner_cell k).
Proof.
  split; [apply is_valid_board_sound; vm_compute; reflexivity|].
  apply (neighbor_count example_board).
  apply is_valid_board_sound. vm_compute. reflexivity.
Defined.

Lemma is_neighbor_valid b n : valid_board b → is_neighbor b n → valid_board n.
Proof.
  intros Hb (neighbors & Hneighbors & Hn).
  destruct (generate_all_neighbor_boards_valid b Hb) as (k & _ & _ & Hk).
  rewrite Hk in Hneighbors. injection Hneighbors as <-.
  by eapply neighbors_at_valid.
Qed.

(** C7: every neighbor of a valid board is a valid board, and so is every
    board reached from it by any number of slides. *)
Theorem neighbors_valid b :
  valid_board b →
  (∃ neighbors, generate_all_neighbor_boards b = Returns neighbors
                ∧ Forall valid_board neighbors)
  ∧ (∀ b', rtc is_neighbor b b' → valid_board b').
Proof.
  intros Hb. split.
  - destruct (generate_all_neighbor_boards_valid b Hb) as (k & _ & _ & ->).
    eexists. split; [done|]. apply Forall_forall.
    intros n Hn. by eapply neighbors_at_valid.
  - intros b' Hreach. induction Hreach as [|b1 b2 b3 Hslide _ IH]; [done|].
    by apply IH, (is_neighbor_valid b1).
Qed.

Lemma neighbors_valid_witness :
  valid_board example_board
  ∧ (∃ neighbors, generate_all_neighbor_boards example_board = Returns neighbors
                  ∧ Forall valid_board neighbors)
  ∧ (∀ b', rtc is_neighbor example_board b' → valid_board b').
Proof.
  split; [apply is_valid_board_sound; vm_compute; reflexivity|].
  apply (neighbors_valid example_board).
  apply is_valid_board_sound. vm_compute. reflexivity.
Defined.

(** C8: a valid board is among the neighbors of each of its neighbors. *)
Theorem neighbors_inverse b :
  valid_board b →
  ∃ neighbors, generate_all_neighbor_boards b = Returns neighbors
    ∧ ∀ n, n ∈ neighbors →
        ∃ back, generate_all_neighbor_boards n = Returns back ∧ b ∈ back.
Proof.
  intros Hb.
  destruct (generate_all_neighbor_boards_valid b Hb) as (k & Hk & _ & ->).
  eexists. split; [done|]. intros n Hn.
  destruct (neighbors_at_inverse b k n Hb Hk Hn) as (j & Hj & Hback).
  exists (neighbors_at n j). split; [|done].
  apply generate_all_neighbor_boards_at; [|done].
  by eapply neighbors_at_valid.
Qed.

Lemma neighbors_inverse_witness :
  valid_board example_board
  ∧ ∃ neighbors, generate_all_neighbor_boards example_board = Returns neighbors
      ∧ ∀ n, n ∈ neighbors →
          ∃ back, generate_all_neighbor_boards n = Returns back
                  ∧ example_board ∈ back.
Proof.
  split; [apply is_valid_board_sound; vm_compute; reflexivity|].
  apply (neighbors_inverse example_board).
  apply is_valid_board_sound. vm_compute. reflexivity.
Defined.

Lemma search_reaches_invariant start limit st :
  valid_board start → search_reaches start limit st →
  search_invariant start limit st.
Proof.
  intros Hstart Hreach. unfold search_reaches in Hreach. revert st Hreach.
  apply (rtc_ind_r (λ st, search_invariant start limit st)).
  { by apply initial_state_invariant. }
  intros st1 st2 _ [Hcond Hstep] IH.
  destruct (search_step_invariant start limit st1 IH Hcond)
    as (next & Hnext & Hinv).
  rewrite Hstep in Hnext. injection Hnext as <-. apply Hinv.
Qed.

(** A search that returns a path does so in a turn of the loop taken at a
    state the loop has reached. *)
Lemma search_loop_returns_path fuel limit st0 path count :
  search_loop fuel limit st0 = Returns (Some path, count) →
  ∃ st, rtc (search_turn limit) st0 st
        ∧ loop_condition limit st = true
        ∧ search_step st = Returns (inl (Some path, count)).
Proof.
  revert st0. induction fuel as [|fuel IH]; intros st0; cbn [search_loop];
    destruct (loop_condition limit st0) eqn:Hcond; try done.
  destruct (search_step st0) as [[r|st1]| |] eqn:Hstep;
    cbn [mbind outcome_bind]; try done.
  - intros [= ->]. by exists st0.
  - intros Hloop. destruct (IH st1 Hloop) as (st & Hreach & Hst).
    exists st. split; [|done]. by eapply rtc_l.
Qed.

Lemma chain_decreasing parents index c :
  chain parents index c →
  head c = Some index ∧ consecutive (λ x y : Z, y < x) c.
Proof.
  induction 1 as [|index parent c Hlt _ _ [Hhead Hcons]].
  - split; [done|]. intros k x y Hx Hy. destruct k; simplify_eq/=.
  - split; [done|]. intros [|k] x y Hx Hy; simplify_eq/=.
    + destruct c; simplify_eq/=. lia.
    + by apply (Hcons k).
Qed.

(** In a state with the tables' invariant, the parent walk from any entry
    returns, and the path rebuilt from it is the boards along the walk. *)
Lemma reconstruct_path_walk start boards parents frontier best :
  tables_invariant start boards parents frontier →
  0 ≤ best < Z.of_nat (length boards) →
  ∃ c, walk_parents (length parents) parents best [] = Returns c
    ∧ chain parents best c
    ∧ reconstruct_path boards parents best
      = Returns (boards_along boards c).
Proof.
  intros Hinv Hbest.
  destruct (walk_parents_chain parents (inv_root _ _ _ _ Hinv)) with
    (fuel := length parents) (index := best) (path_indices := @nil Z)
    as (c & Hwalk & Hchain).
  { intros i p Hi Hp. by destruct (inv_parent _ _ _ _ Hinv i p Hi Hp). }
  { rewrite (inv_lengths _ _ _ _ Hinv). lia. }
  { rewrite (inv_lengths _ _ _ _ Hinv). lia. }
  exists c. split_and!; [done..|].
  pose proof (chain_bounds _ _ _ Hchain) as Hbounds.
  unfold reconstruct_path. rewrite Hwalk. simpl.
  rewrite (for_each_append _ (λ index, boards !!! Z.to_nat index)); [done|].
  intros x Hx. rewrite elem_of_reverse in Hx.
  rewrite Forall_forall in Hbounds. specialize (Hbounds x Hx).
  destruct (getitem_in_range boards x) as (b & -> & Hb); [lia|].
  by rewrite (list_lookup_total_correct _ _ _ Hb).
Qed.

(** The path a turn returns is read off the registry along the parent walk
    from the selected entry. *)
Lemma search_step_path start limit st path count :
  search_invariant start limit st → loop_condition limit st = true →
  search_step st = Returns (inl (Some path, count)) →
  ∃ best c,
    0 ≤ best < Z.of_nat (length (list_of_all_boards st))
    ∧ list_of_all_boards st !! Z.to_nat best = Some GOAL_BOARD
    ∧ walk_parents (length (parent_index st)) (parent_index st) best []
      = Returns c
    ∧ path = boards_along (list_of_all_boards st) c.
Proof.
  destruct st as [boards parents frontier expanded].
  unfold search_invariant, loop_condition, search_step. simpl.
  intros (Hinv & _ & _) [Hne _]%andb_prop. apply Z.ltb_lt in Hne.
  destruct (select_best_Returns boards frontier)
    as (position & best & -> & Hbest);
    [apply Hinv..|lia|]. simpl.
  pose proof (lookup_lt_Some _ _ _ Hbest) as Hposition.
  rewrite pop_delete by lia. simpl.
  destruct (frontier_entry boards frontier best)
    as (current & -> & Hcurrent & Hvalid & Hbest0);
    [apply Hinv..|by eapply list_elem_of_lookup_2|]. simpl.
  pose proof (lookup_lt_Some _ _ _ Hcurrent) as Hlt.
  rewrite boards_are_equal_decide
    by first [reflexivity|by apply valid_board_length].
  simpl. case_bool_decide as Hgoal.
  - destruct (reconstruct_path_walk start boards parents frontier best Hinv)
      as (c & Hwalk & _ & ->); [lia|]. simpl.
    intros [= <- _]. exists best, c. split_and!; [lia..|congruence|done|done].
  - destruct (generate_all_neighbor_boards current) as [neighbors| |]; simpl;
      [|done..].
    by destruct (for_each _ _ _).
Qed.

(** C9: all along a search from a valid board the registry holds no board
    twice and every parent link points to an earlier entry (entry 0, whose
    link is -1, apart), so the parent walk from any entry returns a
    strictly decreasing list of distinct indices; a returned path is the
    boards of the registry along such a walk, and its boards are pairwise
    distinct. *)
Theorem greedy_path_NoDup start limit :
  valid_board start →
  (∀ st, search_reaches start limit st →
     NoDup (list_of_all_boards st)
     ∧ parent_index st !! O = Some (-1)
     ∧ (∀ (i : nat) p,
          i ≠ O → parent_index st !! i = Some p → 0 ≤ p < Z.of_nat i)
     ∧ (∀ index,
          0 ≤ index < Z.of_nat (length (list_of_all_boards st)) →
          ∃ c, walk_parents (length (parent_index st)) (parent_index st)
                 index [] = Returns c
               ∧ head c = Some index
               ∧ consecutive (λ x y : Z, y < x) c
               ∧ NoDup c))
  ∧ (∀ path count,
       greedy_best_first_search start limit = Returns (Some path, count) →
       NoDup path
       ∧ ∃ st best c,
           search_reaches start limit st
           ∧ walk_parents (length (parent_index st)) (parent_index st)
               best [] = Returns c
           ∧ path = boards_along (list_of_all_boards st) c).
Proof.
  intros Hstart. split.
  - intros st Hreach.
    destruct (search_reaches_invariant start limit st Hstart Hreach)
      as (Hinv & _ & _).
    split_and!; [apply Hinv..| |].
    + intros i p Hi Hp. by destruct (inv_parent _ _ _ _ Hinv i p Hi Hp).
    + intros index Hindex.
      destruct (reconstruct_path_walk start _ _ _ index Hinv Hindex)
        as (c & Hwalk & Hchain & _).
      destruct (chain_decreasing _ _ _ Hchain) as [Hhead Hdecr].
      exists c. split_and!; [done..|]. by eapply chain_NoDup.
  - intros path count Hr. split.
    + by destruct (greedy_best_first_search_ok _ _ _ _ Hstart Hr)
        as (_ & _ & _ & Hnodup & _).
    + unfold greedy_best_first_search, greedy_best_first_search_fuel in Hr.
      destruct (search_loop_returns_path _ _ _ _ _ Hr)
        as (st & Hreach & Hcond & Hstep).
      pose proof (search_reaches_invariant start limit st Hstart Hreach)
        as Hinv.
      destruct (search_step_path start limit st path count Hinv Hcond Hstep)
        as (best & c & _ & _ & Hwalk & ->).
      by exists st, best, c.
Qed.

Lemma greedy_path_NoDup_witness :
  valid_board two_slides_away
  ∧ greedy_best_first_search two_slides_away 100000
    = Returns (Some [two_slides_away; one_slide_away; GOAL_BOARD], 3)
  ∧ NoDup [two_slides_away; one_slide_away; GOAL_BOARD]
  ∧ ∀ st, search_reaches two_slides_away 100000 st →
      NoDup (list_of_all_boards st)
      ∧ parent_index st !! O = Some (-1)
      ∧ (∀ (i : nat) p,
           i ≠ O → parent_index st !! i = Some p → 0 ≤ p < Z.of_nat i)
      ∧ (∀ index,
           0 ≤ index < Z.of_nat (length (list_of_all_boards st)) →
           ∃ c, walk_parents (length (parent_index st)) (parent_index st)
                  index [] = Returns c
                ∧ head c = Some index
                ∧ consecutive (λ x y : Z, y < x) c
                ∧ NoDup c).
Proof.
  assert (valid_board two_slides_away) as Hvalid.
  { apply is_valid_board_sound. vm_compute. reflexivity. }
  assert (greedy_best_first_search two_slides_away 100000
          = Returns (Some [two_slides_away; one_slide_away; GOAL_BOARD], 3))
    as Hrun.
  { vm_compute. reflexivity. }
  split; [exact Hvalid|]. split; [exact Hrun|].
  destruct (greedy_path_NoDup two_slides_away 100000 Hvalid)
    as [Hstates Hpath].
  split; [|exact Hstates].
  exact (proj1 (Hpath _ _ Hrun)).
Defined.



(** * Further properties of the code *)

(** ** Loops and indexing *)

Lemma for_each_app {A S : Type} (xs ys : list A) (body : S → A → outcome S)
    (s : S) :
  for_each (xs ++ ys) body s = s' ← for_each xs body s; for_each ys body s'.
Proof.
  revert s. induction xs as [|x xs IH]; intros s; simpl; [done|].
  destruct (body s x) as [s'| |]; simpl; [apply IH|done..].
Qed.

Lemma for_each_ext {A S : Type} (xs : list A) (body body' : S → A → outcome S)
    (s : S) :
  (∀ s x, x ∈ xs → body s x = body' s x) →
  for_each xs body s = for_each xs body' s.
Proof.
  revert s. induction xs as [|x xs IH]; intros s Hbody; simpl; [done|].
  rewrite Hbody by left.
  destruct (body' s x) as [s'| |]; simpl; [|done..].
  apply IH. intros s0 x0 Hx0. apply Hbody. by right.
Qed.

Lemma getitem_beyond {A : Type} (l : list A) i :
  Z.of_nat (length l) ≤ i → getitem l i = Raises IndexError.
Proof.
  intros Hi. unfold getitem.
  destruct (Z.ltb_spec i 0); [lia|].
  destruct (Z.ltb_spec i 0); [lia|].
  by destruct (Z.leb_spec (Z.of_nat (length l)) i); [|lia].
Qed.

Lemma getitem_app_l {A : Type} (l extra : list A) i :
  0 ≤ i < Z.of_nat (length l) → getitem (l ++ extra) i = getitem l i.
Proof.
  intros Hi. destruct (getitem_in_range l i Hi) as (x & -> & Hx).
  apply getitem_lookup; [lia|]. by apply lookup_app_l_Some.
Qed.

(** ** compute_manhattan_total on any list *)

Lemma compute_manhattan_total_cases (b : list Z) :
  compute_manhattan_total b
  = if decide (16 ≤ length b)%nat
    then Returns (manhattan_sum (take 16 b) 0)
    else Raises IndexError.
Proof.
  unfold compute_manhattan_total. case_decide as Hlen.
  - rewrite <-(take_drop 16 b) at 1.
    rewrite (for_each_ext _ _ (manhattan_body (take 16 b))).
    + apply compute_manhattan_total_sum. rewrite length_take. lia.
    + intros s position Hposition%elem_of_range. unfold manhattan_body.
      rewrite getitem_app_l; [done|]. rewrite length_take. lia.
  - assert (range 16 = range_from 0 (0 + Z.of_nat (length b))
                       ++ range_from (Z.of_nat (length b)) 16) as ->.
    { unfold range, range_from.
      replace (16 - 0) with (Z.of_nat (length b) + (16 - Z.of_nat (length b)))
        by lia.
      rewrite seqZ_app by lia. do 2 f_equal; lia. }
    rewrite for_each_app. pose proof (manhattan_loop [] b 0) as Hloop.
    change (Z.of_nat (length [])) with 0 in Hloop.
    change ([] ++ b) with b in Hloop. rewrite Hloop.
    rewrite range_from_cons by lia.
    assert (∀ total, manhattan_body b total (Z.of_nat (length b))
                     = Raises IndexError) as Hraise.
    { intros total. unfold manhattan_body. by rewrite getitem_beyond by lia. }
    simpl. by rewrite Hraise.
Qed.

(** X1: the total reads the first sixteen cells and nothing else: on a list
    of at least sixteen integers it is the sum of their costs, which is not
    negative; on a shorter list the lookup past the end raises
    IndexError. *)
Theorem compute_manhattan_total_any (b : list Z) :
  compute_manhattan_total b
  = (if decide (16 ≤ length b)%nat
     then Returns (manhattan_sum (take 16 b) 0)
     else Raises IndexError)
  ∧ 0 ≤ manhattan_sum (take 16 b) 0.
Proof.
  split; [apply compute_manhattan_total_cases|apply manhattan_sum_nonneg].
Qed.

Lemma manhattan_sum_insert (l : list Z) (i : nat) x y position :
  l !! i = Some x →
  manhattan_sum (<[i := y]> l) position
  = manhattan_sum l position
    - tile_cost (position + Z.of_nat i) x
    + tile_cost (position + Z.of_nat i) y.
Proof.
  revert i position. induction l as [|z l IH]; intros [|i] position Hi;
    simplify_eq/=.
  - replace (position + Z.of_nat 0) with position by lia. lia.
  - rewrite (IH i (position + 1) Hi).
    replace (position + Z.of_nat (S i)) with (position + 1 + Z.of_nat i)
      by lia.
    lia.
Qed.

(** Moving a tile to a cell one shift away changes its distance by one. *)
Lemma tile_distance_shift (k : nat) shift v :
  (k < 16)%nat → shift ∈ possible_shifts (Z.of_nat k) →
  tile_distance (Z.of_nat k) v = tile_distance (Z.of_nat k + shift) v + 1
  ∨ tile_distance (Z.of_nat k) v = tile_distance (Z.of_nat k + shift) v - 1.
Proof.
  intros Hk Hs. unfold tile_distance.
  generalize ((v - 1) / 4) ((v - 1) mod 4). intros goal_row goal_column.
  cell_cases k; vm_compute possible_shifts in Hs;
    repeat (apply elem_of_cons in Hs as [->|Hs]);
    try (by apply elem_of_nil in Hs);
    match goal with
    | |- context [Z.of_nat ?n + ?s] =>
        let r := eval vm_compute in ((Z.of_nat n + s) / 4) in
        let c := eval vm_compute in ((Z.of_nat n + s) mod 4) in
        let r0 := eval vm_compute in (Z.of_nat n / 4) in
        let c0 := eval vm_compute in (Z.of_nat n mod 4) in
        change ((Z.of_nat n + s) / 4) with r;
        change ((Z.of_nat n + s) mod 4) with c;
        change (Z.of_nat n / 4) with r0;
        change (Z.of_nat n mod 4) with c0
    end; lia.
Qed.

Lemma neighbors_at_manhattan b (k : nat) n :
  valid_board b → b !! k = Some 0 → n ∈ neighbors_at b k →
  manhattan_sum n 0 = manhattan_sum b 0 + 1
  ∨ manhattan_sum n 0 = manhattan_sum b 0 - 1.
Proof.
  intros Hb Hk (shift & -> & Hshift)%list_elem_of_fmap.
  destruct (valid_board_lookup b k 0 Hb Hk) as [Hk16 _].
  pose proof (valid_board_length b Hb) as Hlen.
  destruct (possible_shifts_in_grid k shift Hk16 Hshift) as (Hj & Hne & _).
  set (j := Z.to_nat (Z.of_nat k + shift)).
  destruct (lookup_lt_is_Some_2 b j) as [v Hv]; [lia|].
  assert (v ≠ 0) as Hv0.
  { intros ->. assert (j = k); [|lia].
    eapply NoDup_lookup; eauto using valid_board_NoDup. }
  unfold exchange. rewrite Hk, Hv.
  rewrite (manhattan_sum_insert _ j v 0)
    by (rewrite list_lookup_insert_ne by lia; done).
  rewrite (manhattan_sum_insert _ k 0 v) by done.
  unfold tile_cost. simpl.
  destruct (Z.eqb_spec v 0) as [?|_]; [done|].
  replace (0 + Z.of_nat j) with (Z.of_nat k + shift) by lia.
  rewrite Z.add_0_l.
  destruct (tile_distance_shift k shift v Hk16 Hshift); lia.
Qed.

Lemma neighbor_manhattan_step b n :
  valid_board b → is_neighbor b n →
  manhattan_sum n 0 = manhattan_sum b 0 + 1
  ∨ manhattan_sum n 0 = manhattan_sum b 0 - 1.
Proof.
  intros Hb (neighbors & Hneighbors & Hn).
  destruct (generate_all_neighbor_boards_valid b Hb) as (k & Hk & _ & Hat).
  rewrite Hat in Hneighbors. injection Hneighbors as <-.
  by apply (neighbors_at_manhattan b k).
Qed.

(** X2: one slide changes the Manhattan total of a valid board by exactly
    one, up or down. *)
Theorem slide_changes_manhattan_by_one b n :
  valid_board b → is_neighbor b n →
  ∃ h h', compute_manhattan_total b = Returns h
    ∧ compute_manhattan_total n = Returns h'
    ∧ (h' = h + 1 ∨ h' = h - 1).
Proof.
  intros Hb Hn. pose proof (is_neighbor_valid b n Hb Hn) as Hnvalid.
  destruct Hn as (neighbors & Hneighbors & Hn).
  destruct (generate_all_neighbor_boards_valid b Hb) as (k & Hk & _ & Hat).
  rewrite Hat in Hneighbors. injection Hneighbors as <-.
  exists (manhattan_sum b 0), (manhattan_sum n 0). split_and!.
  - by apply compute_manhattan_total_sum, valid_board_length.
  - by apply compute_manhattan_total_sum, valid_board_length.
  - by apply (neighbors_at_manhattan b k).
Qed.

Lemma slide_changes_manhattan_by_one_witness :
  valid_board two_slides_away ∧ is_neighbor two_slides_away one_slide_away
  ∧ ∃ h h', compute_manhattan_total two_slides_away = Returns h
      ∧ compute_manhattan_total one_slide_away = Returns h'
      ∧ (h' = h + 1 ∨ h' = h - 1).
Proof.
  assert (is_neighbor two_slides_away one_slide_away) as Hn.
  { eexists. split; [vm_compute; reflexivity|]. do 2 right. left. }
  split; [apply is_valid_board_sound; vm_compute; reflexivity|].
  split; [exact Hn|].
  apply (slide_changes_manhattan_by_one two_slides_away one_slide_away).
  - apply is_valid_board_sound. vm_compute. reflexivity.
  - exact Hn.
Defined.

(** ** generate_all_neighbor_boards: errors, adjacency, distinctness *)

Lemma index_from_absent (l : list Z) v position :
  v ∉ l → index_from l v position = Raises ValueError.
Proof.
  revert position. induction l as [|x l IH]; intros position Hv; simpl; [done|].
  apply not_elem_of_cons in Hv as [Hne Hv].
  destruct (Z.eqb_spec x v) as [?|_]; [congruence|]. by apply IH.
Qed.

Lemma generate_without_blank (b : list Z) :
  0 ∉ b → generate_all_neighbor_boards b = Raises ValueError.
Proof.
  intros Hb. unfold generate_all_neighbor_boards, index.
  by rewrite index_from_absent.
Qed.

(** X3: on a list without a 0 the neighbor generator raises ValueError
    (from [board.index(0)]) before anything else happens. *)
Theorem generate_all_neighbor_boards_no_blank (b : list Z) :
  0 ∉ b → generate_all_neighbor_boards b = Raises ValueError.
Proof.
  intros Hb. unfold generate_all_neighbor_boards, index.
  by rewrite index_from_absent.
Qed.

Lemma generate_all_neighbor_boards_no_blank_witness :
  (0 ∉ [3; 1; 2])
  ∧ generate_all_neighbor_boards [3; 1; 2] = Raises ValueError.
Proof.
  assert (0 ∉ [3; 1; 2]) as Hb.
  { intros Hin. repeat (apply elem_of_cons in Hin as [[=]|Hin]).
    by apply elem_of_nil in Hin. }
  split; [exact Hb|].
  apply (generate_all_neighbor_boards_no_blank [3; 1; 2]). exact Hb.
Defined.

Lemma adjacent_cells_shift_table :
  Forall (λ k : nat,
    Forall (λ j : nat,
      adjacent_cells k j
      ↔ Z.of_nat j - Z.of_nat k ∈ possible_shifts (Z.of_nat k))
      (seq 0 16))
    (seq 0 16).
Proof. apply (bool_decide_unpack _). vm_compute. exact I. Qed.

(** The possible shifts at a cell lead to the adjacent cells, all of them. *)
Lemma adjacent_cells_shift (k j : nat) :
  (k < 16)%nat → (j < 16)%nat →
  adjacent_cells k j
  ↔ Z.of_nat j - Z.of_nat k ∈ possible_shifts (Z.of_nat k).
Proof.
  intros Hk Hj. pose proof adjacent_cells_shift_table as Htable.
  rewrite Forall_forall in Htable.
  specialize (Htable k ltac:(apply elem_of_seq; lia)).
  rewrite Forall_forall in Htable.
  apply Htable, elem_of_seq. lia.
Qed.

(** X4: the neighbors of a valid board are exactly the boards got by
    exchanging the blank with a cell next to it in its row or column: no
    slide wraps around the end of a row, and no legal slide is left out. *)
Theorem neighbors_are_adjacent_exchanges b (k : nat) :
  valid_board b → b !! k = Some 0 →
  ∃ neighbors, generate_all_neighbor_boards b = Returns neighbors
    ∧ ∀ n, n ∈ neighbors
           ↔ ∃ j : nat, (j < 16)%nat ∧ adjacent_cells k j
                        ∧ n = exchange b k j.
Proof.
  intros Hb Hk. destruct (valid_board_lookup b k 0 Hb Hk) as [Hk16 _].
  exists (neighbors_at b k).
  split; [by apply generate_all_neighbor_boards_at|].
  intros n. unfold neighbors_at. rewrite list_elem_of_fmap. split.
  - intros (shift & -> & Hshift).
    destruct (possible_shifts_in_grid k shift Hk16 Hshift) as (Hj & _ & _).
    exists (Z.to_nat (Z.of_nat k + shift)). split_and!; [lia| |done].
    apply adjacent_cells_shift; [lia..|].
    by replace (Z.of_nat (Z.to_nat (Z.of_nat k + shift)) - Z.of_nat k)
      with shift by lia.
  - intros (j & Hj & Hadj & ->).
    exists (Z.of_nat j - Z.of_nat k). split.
    + f_equal. lia.
    + by apply adjacent_cells_shift.
Qed.

Lemma neighbors_are_adjacent_exchanges_witness :
  valid_board example_board ∧ example_board !! 12%nat = Some 0
  ∧ ∃ neighbors, generate_all_neighbor_boards example_board = Returns neighbors
      ∧ ∀ n, n ∈ neighbors
             ↔ ∃ j : nat, (j < 16)%nat ∧ adjacent_cells 12 j
                          ∧ n = exchange example_board 12 j.
Proof.
  split; [apply is_valid_board_sound; vm_compute; reflexivity|].
  split; [reflexivity|].
  apply (neighbors_are_adjacent_exchanges example_board 12).
  - apply is_valid_board_sound. vm_compute. reflexivity.
  - reflexivity.
Defined.

Lemma possible_shifts_NoDup (k : nat) :
  (k < 16)%nat → NoDup (possible_shifts (Z.of_nat k)).
Proof.
  intros Hk. cell_cases k; vm_compute possible_shifts;
    apply (bool_decide_unpack _); vm_compute; exact I.
Qed.

(** X5: the neighbors of a valid board are pairwise distinct, and none of
    them is the board itself. *)
Theorem neighbors_distinct b :
  valid_board b →
  ∃ neighbors, generate_all_neighbor_boards b = Returns neighbors
    ∧ NoDup neighbors ∧ (b ∉ neighbors).
Proof.
  intros Hb.
  destruct (generate_all_neighbor_boards_valid b Hb) as (k & Hk & Hk16 & ->).
  pose proof (valid_board_length b Hb) as Hlen.
  assert (∀ shift, shift ∈ possible_shifts (Z.of_nat k) →
            exchange b k (Z.to_nat (Z.of_nat k + shift))
              !! Z.to_nat (Z.of_nat k + shift) = Some 0) as Hblank.
  { intros shift Hshift.
    destruct (possible_shifts_in_grid k shift Hk16 Hshift) as (Hj & _ & _).
    apply exchange_lookup_r; [done|lia]. }
  eexists. split; [done|]. split.
  - apply NoDup_fmap_2_strong; [|by apply possible_shifts_NoDup].
    intros s1 s2 Hs1 Hs2 Heq.
    pose proof (Hblank s1 Hs1) as H1. pose proof (Hblank s2 Hs2) as H2.
    rewrite Heq in H1.
    destruct (possible_shifts_in_grid k s1 Hk16 Hs1) as (? & _ & _).
    destruct (possible_shifts_in_grid k s2 Hk16 Hs2) as (? & _ & _).
    assert (Z.to_nat (Z.of_nat k + s1) = Z.to_nat (Z.of_nat k + s2));
      [|lia].
    eapply NoDup_lookup; [|exact H1|exact H2].
    by apply valid_board_NoDup, exchange_valid.
  - intros (shift & Heq & Hshift)%list_elem_of_fmap.
    pose proof (Hblank shift Hshift) as H1. rewrite <-Heq in H1.
    destruct (possible_shifts_in_grid k shift Hk16 Hshift) as (? & ? & _).
    assert (Z.to_nat (Z.of_nat k + shift) = k); [|lia].
    eapply NoDup_lookup; [|exact H1|exact Hk].
    by apply valid_board_NoDup.
Qed.

Lemma neighbors_distinct_witness :
  valid_board example_board
  ∧ ∃ neighbors, generate_all_neighbor_boards example_board = Returns neighbors
      ∧ NoDup neighbors ∧ (example_board ∉ neighbors).
Proof.
  split; [apply is_valid_board_sound; vm_compute; reflexivity|].
  apply (neighbors_distinct example_board).
  apply is_valid_board_sound. vm_compute. reflexivity.
Defined.

(** ** boards_are_equal and find_board_index on any lists *)

Lemma boards_agree_on_any (done_a done_b rest_a rest_b : list Z) (n : nat) :
  length done_a = length done_b →
  boards_agree_on (done_a ++ rest_a) (done_b ++ rest_b)
    (range_from (Z.of_nat (length done_a))
       (Z.of_nat (length done_a) + Z.of_nat n))
  = if decide (n ≤ length rest_a `min` length rest_b)%nat
    then Returns (bool_decide (take n rest_a = take n rest_b))
    else if decide (take (length rest_a `min` length rest_b) rest_a
                    = take (length rest_a `min` length rest_b) rest_b)
         then Raises IndexError
         else Returns false.
Proof.
  revert done_a done_b rest_a rest_b.
  induction n as [|n IH]; intros done_a done_b rest_a rest_b Hd.
  { by rewrite range_from_nil by lia. }
  rewrite range_from_cons by lia. simpl boards_agree_on.
  destruct rest_a as [|x rest_a].
  { rewrite (right_id_L [] (++) done_a), (getitem_beyond done_a) by lia.
    done. }
  rewrite (getitem_nat (done_a ++ x :: rest_a) _ x)
    by apply list_lookup_middle, eq_refl.
  simpl mbind. destruct rest_b as [|y rest_b].
  { rewrite (right_id_L [] (++) done_b), (getitem_beyond done_b) by lia.
    done. }
  rewrite Hd, (getitem_nat (done_b ++ y :: rest_b) _ y)
    by apply list_lookup_middle, eq_refl.
  simpl mbind. simpl length. rewrite <-Nat.succ_min_distr.
  destruct (Z.eqb_spec x y) as [->|Hne]; simpl negb; cbv iota.
  - specialize (IH (done_a ++ [y]) (done_b ++ [y]) rest_a rest_b).
    rewrite !length_app, <-!(assoc_L (++)) in IH. simpl in IH.
    replace (Z.of_nat (length done_b) + Z.of_nat (S n))
      with (Z.of_nat (length done_a + 1) + Z.of_nat n) by lia.
    replace (Z.of_nat (length done_b) + 1)
      with (Z.of_nat (length done_a + 1)) by lia.
    rewrite IH by lia. simpl take.
    set (m := (length rest_a `min` length rest_b)%nat).
    destruct (decide (n ≤ m)%nat) as [Hn|Hn].
    + rewrite (decide_True (P := (S n ≤ S m)%nat)) by lia.
      f_equal. apply bool_decide_ext. split; [congruence|by intros [=]].
    + rewrite (decide_False (P := (S n ≤ S m)%nat)) by lia.
      destruct (decide (take m rest_a = take m rest_b)) as [Ht|Ht].
      * by rewrite decide_True by congruence.
      * rewrite decide_False; [done|]. by intros [=].
  - simpl take.
    set (m := (length rest_a `min` length rest_b)%nat).
    destruct (decide (S n ≤ S m)%nat) as [Hn|Hn].
    + f_equal. symmetry. apply bool_decide_eq_false_2. congruence.
    + rewrite decide_False; [done|]. congruence.
Qed.

Lemma boards_are_equal_cases (a b : list Z) :
  boards_are_equal a b
  = if decide (16 ≤ length a `min` length b)%nat
    then Returns (bool_decide (take 16 a = take 16 b))
    else if decide (take (length a `min` length b) a
                    = take (length a `min` length b) b)
         then Raises IndexError
         else Returns false.
Proof. by apply (boards_agree_on_any [] [] a b 16). Qed.

(** X6: the comparison looks at the first sixteen cells only.  On two lists
    of at least sixteen integers it tells whether those cells agree; when
    one list is shorter it returns False if the lists differ before the
    shorter one ends, and raises IndexError otherwise. *)
Theorem boards_are_equal_any (a b : list Z) :
  boards_are_equal a b
  = if decide (16 ≤ length a `min` length b)%nat
    then Returns (bool_decide (take 16 a = take 16 b))
    else if decide (take (length a `min` length b) a
                    = take (length a `min` length b) b)
         then Raises IndexError
         else Returns false.
Proof. apply boards_are_equal_cases. Qed.

Lemma find_board_among_first (done rest : list (list Z)) (board : list Z) :
  Forall (λ b, length b = 16%nat) rest → length board = 16%nat →
  ∃ r, find_board_among (done ++ rest) board
         (range_from (Z.of_nat (length done))
            (Z.of_nat (length done) + Z.of_nat (length rest)))
       = Returns r
       ∧ ((r = -1 ∧ board ∉ rest)
          ∨ ∃ i : nat, r = Z.of_nat (length done) + Z.of_nat i
                       ∧ rest !! i = Some board
                       ∧ ∀ j : nat, (j < i)%nat → rest !! j ≠ Some board).
Proof.
  intros Hrest Hboard. revert done.
  induction Hrest as [|candidate rest Hc _ IH]; intros done; simpl.
  { rewrite range_from_nil by lia. simpl. eexists. split; [done|].
    left. split; [done|apply not_elem_of_nil]. }
  rewrite range_from_cons by lia. simpl.
  rewrite (getitem_nat _ _ candidate) by apply list_lookup_middle, eq_refl.
  simpl. rewrite boards_are_equal_decide by done. simpl.
  case_bool_decide as Heq.
  - subst. eexists. split; [done|]. right. exists O.
    split_and!; [lia|done|]. intros j Hj. lia.
  - destruct (IH (done ++ [candidate])) as (r & Hr & Hcases).
    rewrite length_app, <-(assoc_L (++)) in Hr. simpl in Hr.
    exists r. split.
    { rewrite <-Hr. f_equal. unfold range_from. f_equal; lia. }
    destruct Hcases as [[-> Hout]|(i & -> & Hi & Hfirst)].
    + left. split; [done|]. rewrite not_elem_of_cons. split; [congruence|done].
    + right. exists (S i). split_and!.
      * rewrite length_app. simpl. lia.
      * done.
      * intros [|j] Hj; simpl; [congruence|]. apply Hfirst. lia.
Qed.

(** X7: in a list of sixteen-cell boards, [find_board_index] returns the
    position of the first entry equal to the board, and -1 when there is
    none. *)
Theorem find_board_index_first (boards : list (list Z)) (board : list Z) :
  Forall (λ b, length b = 16%nat) boards → length board = 16%nat →
  ∃ r, find_board_index boards board = Returns r
    ∧ ((r = -1 ∧ board ∉ boards)
       ∨ (0 ≤ r ∧ boards !! Z.to_nat r = Some board
          ∧ ∀ j : nat, (j < Z.to_nat r)%nat → boards !! j ≠ Some board)).
Proof.
  intros Hboards Hboard.
  destruct (find_board_among_first [] boards board Hboards Hboard)
    as (r & Hr & Hcases).
  exists r. split; [done|].
  destruct Hcases as [?|(i & Hri & Hi & Hfirst)]; [by left|right].
  assert (Z.to_nat r = i) as -> by (simpl in Hri; lia).
  split_and!; [simpl in Hri; lia|done..].
Qed.

Lemma find_board_index_first_witness :
  Forall (λ b : list Z, length b = 16%nat)
    [two_slides_away; one_slide_away; GOAL_BOARD; one_slide_away]
  ∧ length one_slide_away = 16%nat
  ∧ ∃ r, find_board_index
           [two_slides_away; one_slide_away; GOAL_BOARD; one_slide_away]
           one_slide_away = Returns r
      ∧ ((r = -1
          ∧ one_slide_away
            ∉ [two_slides_away; one_slide_away; GOAL_BOARD; one_slide_away])
         ∨ (0 ≤ r
            ∧ [two_slides_away; one_slide_away; GOAL_BOARD; one_slide_away]
                !! Z.to_nat r = Some one_slide_away
            ∧ ∀ j : nat, (j < Z.to_nat r)%nat →
                [two_slides_away; one_slide_away; GOAL_BOARD; one_slide_away]
                  !! j ≠ Some one_slide_away)).
Proof.
  assert (Forall (λ b : list Z, length b = 16%nat)
            [two_slides_away; one_slide_away; GOAL_BOARD; one_slide_away])
    as Hboards by (repeat constructor).
  split; [exact Hboards|]. split; [reflexivity|].
  apply (find_board_index_first
           [two_slides_away; one_slide_away; GOAL_BOARD; one_slide_away]
           one_slide_away); [exact Hboards|reflexivity].
Defined.

(** ** The selection *)

(** Invariant rule for a loop over [range(lo, hi)], the invariant knowing
    how far the loop has come. *)
Lemma for_each_range_invariant {S : Type} (I : Z → S → Prop)
    (body : S → Z → outcome S) (lo hi : Z) (s : S) :
  lo ≤ hi → I lo s →
  (∀ k s, lo ≤ k < hi → I k s → ∃ s', body s k = Returns s' ∧ I (k + 1) s') →
  ∃ s', for_each (range_from lo hi) body s = Returns s' ∧ I hi s'.
Proof.
  intros Hle Hs Hbody.
  remember (Z.to_nat (hi - lo)) as n eqn:Hn.
  revert lo s Hle Hs Hbody Hn.
  induction n as [|n IH]; intros lo s Hle Hs Hbody Hn.
  - assert (lo = hi) as -> by lia. rewrite range_from_nil by lia.
    by exists s.
  - rewrite range_from_cons by lia. simpl.
    destruct (Hbody lo s) as (s1 & -> & Hs1); [lia|done|]. simpl.
    apply IH; [lia|done| |lia].
    intros k s2 Hk. apply Hbody. lia.
Qed.

(** X8: the selection returns a frontier position whose board has the
    smallest Manhattan total of the whole frontier, and among the entries
    with that total the earliest one. *)
Theorem select_best_minimal (boards : list (list Z)) (frontier : list Z) :
  Forall valid_board boards →
  Forall (λ f, 0 ≤ f < Z.of_nat (length boards)) frontier →
  (0 < length frontier)%nat →
  ∃ (position : nat) best best_board best_score,
    select_best boards frontier = Returns (Z.of_nat position, best)
    ∧ frontier !! position = Some best
    ∧ boards !! Z.to_nat best = Some best_board
    ∧ compute_manhattan_total best_board = Returns best_score
    ∧ ∀ (q : nat) f other,
        frontier !! q = Some f → boards !! Z.to_nat f = Some other →
        ∃ score, compute_manhattan_total other = Returns score
                 ∧ best_score ≤ score
                 ∧ ((q < position)%nat → best_score < score).
Proof.
  intros Hvalid Hfrontier Hne.
  set (h := λ f : Z, manhattan_sum (boards !!! Z.to_nat f) 0).
  assert (∀ (q : nat) f, frontier !! q = Some f →
            ∃ b, getitem boards f = Returns b
                 ∧ boards !! Z.to_nat f = Some b
                 ∧ compute_manhattan_total b = Returns (h f)) as Hentry.
  { intros q f Hq.
    destruct (frontier_entry boards frontier f Hvalid Hfrontier)
      as (b & Hget & Hb & Hbvalid & _); [by eapply list_elem_of_lookup_2|].
    exists b. split_and!; [done..|].
    unfold h. rewrite (list_lookup_total_correct _ _ _ Hb).
    by apply compute_manhattan_total_sum, valid_board_length. }
  destruct (lookup_lt_is_Some_2 frontier 0 Hne) as [f0 Hf0].
  destruct (Hentry _ _ Hf0) as (b0 & Hget0 & Hb0 & Hscore0).
  unfold select_best.
  rewrite (getitem_lookup frontier 0 f0) by done. simpl.
  rewrite Hget0. simpl. rewrite Hscore0. simpl.
  destruct (for_each_range_invariant
    (λ (k : Z) (best : Z * Z * Z),
       ∃ p : nat, best.2 = Z.of_nat p ∧ Z.of_nat p < k
         ∧ frontier !! p = Some best.1.2 ∧ best.1.1 = h best.1.2
         ∧ ∀ (q : nat) f, Z.of_nat q < k → frontier !! q = Some f →
             best.1.1 ≤ h f ∧ ((q < p)%nat → best.1.1 < h f))
    (selection_body boards frontier) 1 (Z.of_nat (length frontier))
    (h f0, f0, 0))
    as ([[score best] pos] & -> & p & Hpos & _ & Hbest & Hscore & Hmin).
  - lia.
  - exists O. simpl. split_and!; [done|lia|done|done|].
    intros q f Hq Hf. assert (q = O) as -> by lia.
    assert (f = f0) as -> by congruence. split; lia.
  - intros k [[score best] pos] Hk (p & Hpos & Hp & Hbest & Hscore & Hmin).
    simpl in Hpos, Hbest, Hscore, Hmin. subst pos score.
    unfold selection_body.
    destruct (getitem_in_range frontier k) as (f & -> & Hf); [lia|]. simpl.
    destruct (Hentry _ _ Hf) as (b & Hgb & _ & Hcb).
    rewrite Hgb. simpl. rewrite Hcb. simpl.
    destruct (Z.ltb_spec (h f) (h best)) as [Hlt|Hge];
      eexists; (split; [done|]); simpl.
    + exists (Z.to_nat k). split_and!; [lia|lia|done|done|].
      intros q f' Hq Hf'. destruct (decide (q = Z.to_nat k)) as [->|Hqk].
      * assert (f' = f) as -> by congruence. split; lia.
      * destruct (Hmin q f') as [Hle _]; [lia|done|]. split; lia.
    + exists p. split_and!; [done|lia|done|done|].
      intros q f' Hq Hf'. destruct (decide (q = Z.to_nat k)) as [->|Hqk].
      * assert (f' = f) as -> by congruence. split; lia.
      * apply Hmin; [lia|done].
  - simpl in Hpos, Hbest, Hscore, Hmin. subst pos score. simpl.
    destruct (Hentry _ _ Hbest) as (best_board & _ & Hboard & Hbs).
    exists p, best, best_board, (h best). split_and!; [done..|].
    intros q f other Hq Hother.
    destruct (Hentry _ _ Hq) as (b & _ & Hb & Hb_score).
    assert (other = b) as -> by congruence.
    exists (h f). split; [done|].
    apply Hmin; [|done]. pose proof (lookup_lt_Some _ _ _ Hq). lia.
Qed.

Lemma select_best_minimal_witness :
  Forall valid_board [two_slides_away; one_slide_away; GOAL_BOARD]
  ∧ Forall (λ f, 0 ≤ f < Z.of_nat (length
             [two_slides_away; one_slide_away; GOAL_BOARD])) [0; 2; 1]
  ∧ (0 < length [0; 2; 1])%nat
  ∧ ∃ (position : nat) best best_board best_score,
      select_best [two_slides_away; one_slide_away; GOAL_BOARD] [0; 2; 1]
      = Returns (Z.of_nat position, best)
      ∧ [0; 2; 1] !! position = Some best
      ∧ [two_slides_away; one_slide_away; GOAL_BOARD] !! Z.to_nat best
        = Some best_board
      ∧ compute_manhattan_total best_board = Returns best_score
      ∧ ∀ (q : nat) f other,
          [0; 2; 1] !! q = Some f →
          [two_slides_away; one_slide_away; GOAL_BOARD] !! Z.to_nat f
          = Some other →
          ∃ score, compute_manhattan_total other = Returns score
                   ∧ best_score ≤ score
                   ∧ ((q < position)%nat → best_score < score).
Proof.
  assert (Forall valid_board [two_slides_away; one_slide_away; GOAL_BOARD])
    as Hvalid.
  { repeat constructor; apply is_valid_board_sound; vm_compute; reflexivity. }
  assert (Forall (λ f, 0 ≤ f < Z.of_nat (length
            [two_slides_away; one_slide_away; GOAL_BOARD])) [0; 2; 1])
    as Hfrontier.
  { repeat constructor; simpl; lia. }
  split; [exact Hvalid|]. split; [exact Hfrontier|]. split; [simpl; lia|].
  apply (select_best_minimal
           [two_slides_away; one_slide_away; GOAL_BOARD] [0; 2; 1]);
    [exact Hvalid|exact Hfrontier|simpl; lia].
Defined.

(** ** The search: limits, solved boards, path lengths *)

Lemma search_loop_path_limit fuel limit st path count :
  search_loop fuel limit st = Returns (Some path, count) →
  number_of_expanded_boards st < count
  ∧ ∀ limit', count ≤ limit' →
      search_loop fuel limit' st = Returns (Some path, count).
Proof.
  revert st. induction fuel as [|fuel IH]; intros st; simpl;
    destruct (loop_condition limit st) eqn:Hcond; try done.
  apply andb_prop in Hcond as [Hne _].
  destruct (search_step st) as [[r|st']| |] eqn:Hstep; simpl; try done.
  - intros [= ->]. pose proof (search_step_counts _ _ Hstep) as Hcount.
    simpl in Hcount. split; [lia|]. intros limit' Hlimit'.
    unfold loop_condition. rewrite Hne.
    by destruct (Z.ltb_spec (number_of_expanded_boards st) limit'); [|lia].
  - intros Hloop. pose proof (search_step_counts _ _ Hstep) as Hcount.
    simpl in Hcount. destruct (IH st' Hloop) as [Hlt Hlimits].
    split; [lia|]. intros limit' Hlimit'.
    unfold loop_condition. rewrite Hne.
    destruct (Z.ltb_spec (number_of_expanded_boards st) limit'); [|lia].
    by apply Hlimits.
Qed.

(** X9: a solution found within one limit is found within every limit that
    is at least the expansion count it came with: the same path, the same
    count. *)
Theorem solution_stable_under_limits start limit limit' path count :
  valid_board start →
  greedy_best_first_search start limit = Returns (Some path, count) →
  count ≤ limit' →
  greedy_best_first_search start limit' = Returns (Some path, count).
Proof.
  intros Hstart Hr Hlimit'.
  unfold greedy_best_first_search, greedy_best_first_search_fuel in *.
  destruct (search_loop_path_limit _ _ _ _ _ Hr) as [_ Hlimits].
  specialize (Hlimits limit' Hlimit').
  pose proof (search_loop_invariant start limit' (Z.to_nat limit')
                (initial_state start)
                (initial_state_invariant start limit' Hstart)) as Hinv.
  destruct (search_loop (Z.to_nat limit') limit' (initial_state start))
    as [r| |] eqn:Hr'; [|done|simpl in Hinv; lia].
  f_equal.
  set (fuel := (Z.to_nat limit `max` Z.to_nat limit')%nat).
  assert (search_loop fuel limit' (initial_state start) = Returns r) as H1.
  { apply (search_loop_fuel_mono (Z.to_nat limit')); [lia|done]. }
  assert (search_loop fuel limit' (initial_state start)
          = Returns (Some path, count)) as H2.
  { apply (search_loop_fuel_mono (Z.to_nat limit)); [lia|done]. }
  congruence.
Qed.

Lemma solution_stable_under_limits_witness :
  valid_board two_slides_away
  ∧ greedy_best_first_search two_slides_away 100000
    = Returns (Some [two_slides_away; one_slide_away; GOAL_BOARD], 3)
  ∧ 3 ≤ 7
  ∧ greedy_best_first_search two_slides_away 7
    = Returns (Some [two_slides_away; one_slide_away; GOAL_BOARD], 3).
Proof.
  split; [apply is_valid_board_sound; vm_compute; reflexivity|].
  split; [vm_compute; reflexivity|]. split; [lia|].
  apply (solution_stable_under_limits two_slides_away 100000 7).
  - apply is_valid_board_sound. vm_compute. reflexivity.
  - vm_compute. reflexivity.
  - lia.
Defined.

Lemma search_step_goal :
  search_step (initial_state GOAL_BOARD)
  = Returns (inl (Some [GOAL_BOARD], 1)).
Proof. vm_compute. reflexivity. Qed.

(** X10: a returned path has a single board exactly when the start board is
    already the goal board, and then the count returned is 1. *)
Theorem solved_start_single_board start limit path count :
  valid_board start →
  greedy_best_first_search start limit = Returns (Some path, count) →
  (length path = 1%nat ↔ start = GOAL_BOARD)
  ∧ (start = GOAL_BOARD → count = 1).
Proof.
  intros Hstart Hr.
  destruct (greedy_best_first_search_ok _ _ _ _ Hstart Hr)
    as (Hhead & Hlast & _ & Hnodup & _).
  split; [split|].
  - destruct path as [|b [|b' path]]; [done| |done].
    intros _. simpl in Hhead, Hlast. congruence.
  - intros ->. destruct path as [|b [|b' path]]; [done..|].
    simpl in Hhead. injection Hhead as ->.
    apply NoDup_cons in Hnodup as [Hout _]. destruct Hout.
    change (last (GOAL_BOARD :: b' :: path)) with (last (b' :: path)) in Hlast.
    rewrite last_lookup in Hlast. by eapply list_elem_of_lookup_2.
  - intros ->.
    unfold greedy_best_first_search, greedy_best_first_search_fuel in Hr.
    destruct (Z.to_nat limit) as [|fuel]; cbn [search_loop] in Hr;
      destruct (loop_condition limit (initial_state GOAL_BOARD)); try done.
    rewrite search_step_goal in Hr. simpl in Hr. congruence.
Qed.

Lemma solved_start_single_board_witness :
  valid_board GOAL_BOARD
  ∧ greedy_best_first_search GOAL_BOARD 5 = Returns (Some [GOAL_BOARD], 1)
  ∧ (length [GOAL_BOARD] = 1%nat ↔ GOAL_BOARD = GOAL_BOARD)
  ∧ (GOAL_BOARD = GOAL_BOARD → 1 = 1).
Proof.
  split; [apply is_valid_board_sound; vm_compute; reflexivity|].
  split; [vm_compute; reflexivity|].
  apply (solved_start_single_board GOAL_BOARD 5 [GOAL_BOARD] 1).
  - apply is_valid_board_sound. vm_compute. reflexivity.
  - vm_compute. reflexivity.
Defined.

Lemma consecutive_tail {A : Type} (R : A → A → Prop) x (l : list A) :
  consecutive R (x :: l) → consecutive R l.
Proof. intros Hl k y z Hy Hz. by apply (Hl (S k) y z). Qed.

(** Along slides to the goal, the number of slides is the Manhattan total of
    the first board plus an even number. *)
Lemma slides_to_goal_manhattan b (rest : list (list Z)) :
  valid_board b → consecutive is_neighbor (b :: rest) →
  last (b :: rest) = Some GOAL_BOARD →
  ∃ m : nat, Z.of_nat (length rest) = manhattan_sum b 0 + 2 * Z.of_nat m.
Proof.
  revert b. induction rest as [|b2 rest IH]; intros b Hb Hcons Hlast.
  - simpl in Hlast. injection Hlast as ->. by exists O.
  - assert (is_neighbor b b2) as Hslide by by apply (Hcons O).
    pose proof (is_neighbor_valid b b2 Hb Hslide) as Hb2.
    destruct (IH b2 Hb2 (consecutive_tail _ _ _ Hcons) Hlast) as [m Hm].
    destruct (neighbor_manhattan_step b b2 Hb Hslide) as [Hh|Hh].
    + exists (S m). simpl length. lia.
    + exists m. simpl length. lia.
Qed.

(** X11: the Manhattan total of the start board is a lower bound on the
    number of slides of a returned path, and the two differ by an even
    number; so the count returned is more than the total. *)
Theorem path_at_least_manhattan start limit path count :
  valid_board start →
  greedy_best_first_search start limit = Returns (Some path, count) →
  ∃ h (m : nat),
    compute_manhattan_total start = Returns h
    ∧ Z.of_nat (length path) - 1 = h + 2 * Z.of_nat m
    ∧ h < count.
Proof.
  intros Hstart Hr.
  destruct (greedy_best_first_search_ok _ _ _ _ Hstart Hr)
    as (Hhead & Hlast & Hcons & _ & Hlength).
  destruct path as [|b rest]; [done|]. simpl in Hhead. injection Hhead as ->.
  destruct (slides_to_goal_manhattan start rest Hstart Hcons Hlast) as [m Hm].
  exists (manhattan_sum start 0), m. split_and!.
  - by apply compute_manhattan_total_sum, valid_board_length.
  - simpl length. lia.
  - simpl length in Hlength. lia.
Qed.

Lemma path_at_least_manhattan_witness :
  valid_board two_slides_away
  ∧ greedy_best_first_search two_slides_away 100000
    = Returns (Some [two_slides_away; one_slide_away; GOAL_BOARD], 3)
  ∧ ∃ h (m : nat),
      compute_manhattan_total two_slides_away = Returns h
      ∧ Z.of_nat (length [two_slides_away; one_slide_away; GOAL_BOARD]) - 1
        = h + 2 * Z.of_nat m
      ∧ h < 3.
Proof.
  split; [apply is_valid_board_sound; vm_compute; reflexivity|].
  split; [vm_compute; reflexivity|].
  apply (path_at_least_manhattan two_slides_away 100000 _ 3).
  - apply is_valid_board_sound. vm_compute. reflexivity.
  - vm_compute. reflexivity.
Defined.

(** ** One expansion: what it does to the tables *)

Lemma record_neighbor_cases best (boards : list (list Z))
    (parents frontier : list Z) n t :
  record_neighbor best (boards, parents, frontier) n = Returns t →
  t = (boards, parents, frontier)
  ∨ t = (boards ++ [n], parents ++ [best],
         frontier ++ [Z.of_nat (length boards)]).
Proof.
  unfold record_neighbor.
  destruct (find_board_index boards n) as [r| |]; simpl; [|done..].
  destruct (r =? -1); intros [= <-]; [right|by left].
  rewrite length_app. simpl. do 3 f_equal. lia.
Qed.

Lemma record_neighbors_append best (neighbors : list (list Z))
    (boards : list (list Z)) (parents frontier : list Z) t :
  for_each neighbors (record_neighbor best) (boards, parents, frontier)
  = Returns t →
  ∃ new, t = (boards ++ new,
              parents ++ replicate (length new) best,
              frontier ++ seqZ (Z.of_nat (length boards))
                            (Z.of_nat (length new)))
         ∧ (length new ≤ length neighbors)%nat
         ∧ ∀ b, b ∈ new → b ∈ neighbors.
Proof.
  revert boards parents frontier.
  induction neighbors as [|n neighbors IH]; intros boards parents frontier;
    cbn [for_each].
  { intros [= <-]. exists []. simpl.
    replace (seqZ (Z.of_nat (length boards)) (Z.of_nat 0)) with (@nil Z)
      by done.
    rewrite !(right_id_L [] (++)).
    split_and!; [done|lia|done]. }
  destruct (record_neighbor best (boards, parents, frontier) n)
    as [t1| |] eqn:Hn; simpl; [|done..].
  intros Hrest.
  destruct (record_neighbor_cases _ _ _ _ _ _ Hn) as [->| ->].
  - destruct (IH _ _ _ Hrest) as (new & -> & Hlen & Hsub).
    exists new. split_and!; [done|lia|]. intros b Hb. right. by apply Hsub.
  - destruct (IH _ _ _ Hrest) as (new & -> & Hlen & Hsub).
    exists (n :: new). split_and!.
    + rewrite <-!(assoc_L (++)). simpl. do 2 f_equal.
      rewrite (seqZ_cons _ (Z.of_nat (S (length new)))) by lia.
      rewrite length_app. simpl. do 3 f_equal; lia.
    + simpl. lia.
    + intros b [->|Hb]%elem_of_cons; [by left|right; by apply Hsub].
Qed.

(** X12: an expansion that does not end the search takes one entry out of
    the frontier, leaves the boards and parent links recorded so far as
    they are, and appends at most four new boards, each a neighbor of the
    expanded board, with the expanded entry as their parent and their own
    indices added to the frontier. *)
Theorem search_step_appends st st' :
  Forall valid_board (list_of_all_boards st) →
  Forall (λ f, 0 ≤ f < Z.of_nat (length (list_of_all_boards st)))
    (frontier_indices st) →
  search_step st = Returns (inr st') →
  ∃ (position : nat) best current new,
    frontier_indices st !! position = Some best
    ∧ list_of_all_boards st !! Z.to_nat best = Some current
    ∧ list_of_all_boards st' = list_of_all_boards st ++ new
    ∧ parent_index st' = parent_index st ++ replicate (length new) best
    ∧ frontier_indices st'
      = delete position (frontier_indices st)
        ++ seqZ (Z.of_nat (length (list_of_all_boards st)))
             (Z.of_nat (length new))
    ∧ (length new ≤ 4)%nat
    ∧ Forall (is_neighbor current) new.
Proof.
  destruct st as [boards parents frontier expanded]. simpl.
  intros Hvalid Hfrontier. unfold search_step. simpl.
  destruct frontier as [|f0 frontier0] eqn:Hfr; [done|]. rewrite <-Hfr in *.
  destruct (select_best_Returns boards frontier Hvalid Hfrontier)
    as (position & best & -> & Hbest); [subst; simpl; lia|]. simpl.
  pose proof (lookup_lt_Some _ _ _ Hbest) as Hposition.
  rewrite pop_delete by lia. simpl. rewrite Nat2Z.id.
  destruct (frontier_entry boards frontier best Hvalid Hfrontier)
    as (current & -> & Hcurrent & Hcvalid & _);
    [by eapply list_elem_of_lookup_2|]. simpl.
  destruct (boards_are_equal current GOAL_BOARD) as [[]| |]; simpl;
    [|  |done..].
  { by destruct (reconstruct_path _ _ _). }
  destruct (generate_all_neighbor_boards_valid current Hcvalid)
    as (k & _ & Hk16 & Hneighbors).
  rewrite Hneighbors. simpl.
  destruct (for_each _ _ _) as [t| |] eqn:Ht; simpl; [|done..].
  intros [= <-]. simpl.
  destruct (record_neighbors_append _ _ _ _ _ _ Ht)
    as (new & -> & Hlen & Hsub).
  exists position, best, current, new. simpl.
  split_and!; [done..| |].
  - unfold neighbors_at in Hlen. rewrite length_fmap in Hlen.
    destruct (possible_shifts_length k Hk16) as [? _]. lia.
  - apply Forall_forall. intros b Hb.
    exists (neighbors_at current k). split; [done|by apply Hsub].
Qed.

Lemma search_step_appends_witness :
  Forall valid_board (list_of_all_boards (initial_state example_board))
  ∧ Forall (λ f, 0 ≤ f < Z.of_nat (length
             (list_of_all_boards (initial_state example_board))))
      (frontier_indices (initial_state example_board))
  ∧ search_step (initial_state example_board)
    = Returns (inr (SearchState
        [example_board;
         [5; 1; 2; 3; 9; 6; 7; 4; 0; 10; 11; 8; 13; 14; 15; 12];
         [5; 1; 2; 3; 9; 6; 7; 4; 13; 10; 11; 8; 14; 0; 15; 12]]
        [-1; 0; 0] [1; 2] 1))
  ∧ ∃ (position : nat) best current new,
      frontier_indices (initial_state example_board) !! position = Some best
      ∧ list_of_all_boards (initial_state example_board) !! Z.to_nat best
        = Some current
      ∧ [example_board;
         [5; 1; 2; 3; 9; 6; 7; 4; 0; 10; 11; 8; 13; 14; 15; 12];
         [5; 1; 2; 3; 9; 6; 7; 4; 13; 10; 11; 8; 14; 0; 15; 12]]
        = list_of_all_boards (initial_state example_board) ++ new
      ∧ [-1; 0; 0]
        = parent_index (initial_state example_board)
          ++ replicate (length new) best
      ∧ [1; 2]
        = delete position (frontier_indices (initial_state example_board))
          ++ seqZ (Z.of_nat (length
                     (list_of_all_boards (initial_state example_board))))
               (Z.of_nat (length new))
      ∧ (length new ≤ 4)%nat
      ∧ Forall (is_neighbor current) new.
Proof.
  assert (Forall valid_board
            (list_of_all_boards (initial_state example_board))) as Hvalid.
  { repeat constructor. apply is_valid_board_sound. vm_compute. reflexivity. }
  assert (Forall (λ f, 0 ≤ f < Z.of_nat (length
            (list_of_all_boards (initial_state example_board))))
            (frontier_indices (initial_state example_board))) as Hfrontier.
  { repeat constructor; simpl; lia. }
  split; [exact Hvalid|]. split; [exact Hfrontier|].
  split; [vm_compute; reflexivity|].
  apply (search_step_appends (initial_state example_board)
           (SearchState
              [example_board;
               [5; 1; 2; 3; 9; 6; 7; 4; 0; 10; 11; 8; 13; 14; 15; 12];
               [5; 1; 2; 3; 9; 6; 7; 4; 13; 10; 11; 8; 14; 0; 15; 12]]
              [-1; 0; 0] [1; 2] 1));
    [exact Hvalid|exact Hfrontier|vm_compute; reflexivity].
Defined.

(** ** print_board_in_grid *)

Example print_example_board :
  print_board_in_grid example_board
  = ["  5  1  2  3"; "  9  6  7  4"; " 13 10 11  8"; "  . 14 15 12";
     EmptyString]%string.
Proof. vm_compute. reflexivity. Qed.

Lemma string_app_cons a (s t : string) :
  String a s +:+ t = String a (s +:+ t).
Proof. reflexivity. Qed.

Lemma string_app_assoc (s t u : string) : (s +:+ t) +:+ u = s +:+ (t +:+ u).
Proof.
  induction s as [|a s IH]; [done|].
  by rewrite !string_app_cons, IH.
Qed.

Lemma string_app_nil_r (s : string) : s +:+ EmptyString = s.
Proof.
  induction s as [|a s IH]; [done|]. by rewrite string_app_cons, IH.
Qed.

Lemma string_app_length (s t : string) :
  String.length (s +:+ t) = (String.length s + String.length t)%nat.
Proof.
  induction s as [|a s IH]; [done|].
  rewrite string_app_cons. simpl. by rewrite IH.
Qed.

Lemma string_app_inj_length (s1 s2 t1 t2 : string) :
  String.length s1 = String.length s2 →
  s1 +:+ t1 = s2 +:+ t2 → s1 = s2 ∧ t1 = t2.
Proof.
  revert s2. induction s1 as [|a s1 IH]; intros [|b s2] Hlen Heq;
    try discriminate Hlen.
  - by split.
  - rewrite !string_app_cons in Heq. injection Heq as -> Heq.
    injection Hlen as Hlen. by destruct (IH s2 Hlen Heq) as [-> ->].
Qed.

Lemma cell_text_table :
  Forall (λ v, String.length (cell_text v) = 3%nat) (seqZ 0 16)
  ∧ NoDup (cell_text <$> seqZ 0 16).
Proof. apply (bool_decide_unpack _). vm_compute. exact I. Qed.

Lemma cell_text_length v :
  0 ≤ v < 16 → String.length (cell_text v) = 3%nat.
Proof.
  intros Hv. destruct cell_text_table as [Hlen _].
  rewrite Forall_forall in Hlen. apply Hlen, elem_of_seqZ. lia.
Qed.

Lemma cell_text_inj v w :
  0 ≤ v < 16 → 0 ≤ w < 16 → cell_text v = cell_text w → v = w.
Proof.
  intros Hv Hw Heq. destruct cell_text_table as [_ Hnodup].
  assert (seqZ 0 16 !! Z.to_nat v = Some v) as Hlv.
  { rewrite lookup_seqZ. lia. }
  assert (seqZ 0 16 !! Z.to_nat w = Some w) as Hlw.
  { rewrite lookup_seqZ. lia. }
  assert (Z.to_nat v = Z.to_nat w); [|lia].
  apply (NoDup_lookup _ _ _ (cell_text v) Hnodup).
  - by rewrite list_lookup_fmap, Hlv.
  - by rewrite list_lookup_fmap, Hlw, Heq.
Qed.

Lemma print_cell_app line tile_value :
  print_cell line tile_value = line +:+ cell_text tile_value.
Proof. unfold print_cell, cell_text. by destruct (tile_value =? 0). Qed.

Lemma foldl_print_cell line cells :
  foldl print_cell line cells = line +:+ row_text cells.
Proof.
  revert line. induction cells as [|v cells IH]; intros line; simpl.
  - by rewrite string_app_nil_r.
  - by rewrite IH, print_cell_app, string_app_assoc.
Qed.

Lemma print_board_in_grid_rows (board : list Z) :
  print_board_in_grid board
  = [row_text (slice board 0 4); row_text (slice board 4 8);
     row_text (slice board 8 12); row_text (slice board 12 16);
     EmptyString].
Proof.
  unfold print_board_in_grid.
  change (range 4) with [0; 1; 2; 3]. simpl fmap. simpl app.
  by rewrite !foldl_print_cell.
Qed.

Lemma row_text_length cells :
  Forall (λ v, 0 ≤ v < 16) cells →
  String.length (row_text cells) = (3 * length cells)%nat.
Proof.
  induction 1 as [|v cells Hv _ IH]; [done|]. simpl.
  rewrite string_app_length, cell_text_length, IH by done. lia.
Qed.

Lemma row_text_inj cells1 cells2 :
  Forall (λ v, 0 ≤ v < 16) cells1 → Forall (λ v, 0 ≤ v < 16) cells2 →
  length cells1 = length cells2 →
  row_text cells1 = row_text cells2 → cells1 = cells2.
Proof.
  intros H1. revert cells2.
  induction H1 as [|v cells1 Hv _ IH]; intros [|w cells2] H2 Hlen Heq;
    simplify_eq/=; [done|].
  apply Forall_cons in H2 as [Hw H2].
  apply string_app_inj_length in Heq as [Hvw Heq];
    [|by rewrite !cell_text_length].
  f_equal; [by apply cell_text_inj|]. by apply IH.
Qed.

Lemma slice_valid b lo hi :
  valid_board b → Forall (λ v, 0 ≤ v < 16) (slice b lo hi).
Proof.
  intros Hb. unfold slice. apply Forall_take, Forall_drop, Forall_forall.
  intros v Hv. by apply (valid_board_elem b v Hb).
Qed.

Lemma board_slices (b : list Z) :
  length b = 16%nat →
  b = slice b 0 4 ++ slice b 4 8 ++ slice b 8 12 ++ slice b 12 16.
Proof.
  intros Hb. do 16 (destruct b as [|? b]; [done|]).
  by destruct b.
Qed.

Lemma slice_length (b : list Z) (lo hi : Z) :
  length b = 16%nat → 0 ≤ lo ≤ hi → hi ≤ 16 →
  length (slice b lo hi) = Z.to_nat (hi - lo).
Proof.
  intros Hb Hlo Hhi. unfold slice. rewrite length_take, length_drop. lia.
Qed.

(** X13: a valid board is printed as four rows of twelve characters and
    an empty line, each cell taking three characters. *)
Theorem print_board_in_grid_shape b :
  valid_board b →
  ∃ r0 r1 r2 r3,
    print_board_in_grid b = [r0; r1; r2; r3; EmptyString]
    ∧ Forall (λ r, String.length r = 12%nat) [r0; r1; r2; r3].
Proof.
  intros Hb. pose proof (valid_board_length b Hb) as Hlen.
  rewrite print_board_in_grid_rows. eexists _, _, _, _. split; [done|].
  repeat constructor; rewrite row_text_length by (by apply slice_valid);
    rewrite slice_length by (done || lia); lia.
Qed.

Lemma print_board_in_grid_shape_witness :
  valid_board example_board
  ∧ ∃ r0 r1 r2 r3,
      print_board_in_grid example_board = [r0; r1; r2; r3; EmptyString]
      ∧ Forall (λ r, String.length r = 12%nat) [r0; r1; r2; r3].
Proof.
  split; [apply is_valid_board_sound; vm_compute; reflexivity|].
  apply (print_board_in_grid_shape example_board).
  apply is_valid_board_sound. vm_compute. reflexivity.
Defined.

(** X14: the printed grid tells the board: two valid boards printed alike
    are the same board. *)
Theorem print_board_in_grid_inj b1 b2 :
  valid_board b1 → valid_board b2 →
  print_board_in_grid b1 = print_board_in_grid b2 → b1 = b2.
Proof.
  intros Hb1 Hb2.
  pose proof (valid_board_length b1 Hb1) as Hlen1.
  pose proof (valid_board_length b2 Hb2) as Hlen2.
  rewrite !print_board_in_grid_rows. intros [= H0 H1 H2 H3].
  rewrite (board_slices b1 Hlen1), (board_slices b2 Hlen2).
  apply row_text_inj in H0, H1, H2, H3;
    try (by apply slice_valid);
    try (rewrite !slice_length by (done || lia); done).
  by rewrite H0, H1, H2, H3.
Qed.

Lemma print_board_in_grid_inj_witness :
  valid_board example_board ∧ valid_board example_board
  ∧ print_board_in_grid example_board = print_board_in_grid example_board
  ∧ example_board = example_board.
Proof.
  split; [apply is_valid_board_sound; vm_compute; reflexivity|].
  split; [apply is_valid_board_sound; vm_compute; reflexivity|].
  split; [reflexivity|].
  apply (print_board_in_grid_inj example_board example_board).
  - apply is_valid_board_sound. vm_compute. reflexivity.
  - apply is_valid_board_sound. vm_compute. reflexivity.
  - reflexivity.
Defined.

(** ** read_board_from_user *)

Lemma read_board_from_user_valid strip split int typed b :
  read_board_from_user strip split int typed = Returns b → valid_board b.
Proof.
  unfold read_board_from_user.
  case_bool_decide as Hempty.
  { intros [= <-]. apply is_valid_board_sound. vm_compute. reflexivity. }
  case_bool_decide as Hpieces; simpl; [|done].
  destruct (int_each int (split (strip typed))) as [board| |]; simpl;
    [|done..].
  case_bool_decide as Hsorted; simpl; [|done].
  intros [= <-]. by apply is_valid_board_sound, bool_decide_eq_true.
Qed.

Lemma read_board_from_user_returns strip split int typed b :
  read_board_from_user strip split int typed = Returns b
  ↔ (strip typed = EmptyString ∧ b = example_board)
    ∨ (strip typed ≠ EmptyString
       ∧ length (split (strip typed)) = 16%nat
       ∧ int_each int (split (strip typed)) = Returns b
       ∧ valid_board b).
Proof.
  unfold read_board_from_user.
  case_bool_decide as Hempty.
  { split; [intros [= <-]; by left|]. by intros [[_ ->]|[? _]]. }
  case_bool_decide as Hpieces; simpl.
  2:{ split; [done|]. by intros [[? _]|(_ & ? & _)]. }
  destruct (int_each int (split (strip typed))) as [board| |]; simpl.
  2,3: split; [done|]; by intros [[? _]|(_ & _ & ? & _)].
  case_bool_decide as Hsorted; simpl.
  - split.
    + intros [= <-]. right. split_and!; [done..|].
      by apply is_valid_board_sound, bool_decide_eq_true.
    + intros [[? _]|(_ & _ & [= <-] & _)]; done.
  - split; [done|]. intros [[? _]|(_ & _ & [= <-] & Hvalid)]; [done|].
    apply is_valid_board_spec, bool_decide_eq_true in Hvalid. done.
Qed.

Lemma read_board_from_user_cases strip split int typed :
  read_board_from_user strip split int typed
  = if decide (strip typed = EmptyString) then Returns example_board
    else if decide (length (split (strip typed)) = 16%nat) then
      board ← int_each int (split (strip typed));
      if decide (valid_board board) then Returns board
      else Raises ValueError
    else Raises ValueError.
Proof.
  unfold read_board_from_user.
  case_bool_decide as Hempty.
  { by rewrite decide_True. }
  rewrite (decide_False (P := strip typed = EmptyString)) by done.
  case_bool_decide as Hpieces; simpl.
  2:{ by rewrite decide_False. }
  rewrite (decide_True (P := length (split (strip typed)) = 16%nat)) by done.
  destruct (int_each int (split (strip typed))) as [board| |]; simpl;
    [|done..].
  case_bool_decide as Hsorted; simpl.
  - rewrite decide_True; [done|].
    by apply is_valid_board_sound, bool_decide_eq_true.
  - rewrite decide_False; [done|]. intros Hvalid.
    by apply is_valid_board_spec, bool_decide_eq_true in Hvalid.
Qed.

(** How [[int(x) for x in pieces]] ends: with the integers when [int]
    returns on every piece, and otherwise the way [int] ends on the first
    piece it does not return on. *)
Lemma int_each_cases (int : string → outcome Z) (pieces : list string) :
  (∃ board, int_each int pieces = Returns board
            ∧ Forall2 (λ x v, int x = Returns v) pieces board)
  ∨ (∃ accepted x rest,
       pieces = accepted ++ x :: rest
       ∧ Forall (λ y, ∃ v, int y = Returns v) accepted
       ∧ ((∃ e, int x = Raises e ∧ int_each int pieces = Raises e)
          ∨ (int x = OutOfFuel ∧ int_each int pieces = OutOfFuel))).
Proof.
  induction pieces as [|x pieces IH]; simpl.
  { left. exists []. split; [done|constructor]. }
  destruct (int x) as [v|e|] eqn:Hx; simpl.
  - destruct IH as [(board & -> & Hall)|(accepted & y & rest & -> & Hacc & Hy)].
    + left. exists (v :: board). split; [done|]. by constructor.
    + right. exists (x :: accepted), y, rest. split_and!; [done| |].
      * constructor; [by exists v|done].
      * destruct Hy as [(e & He & ->)|[Hy ->]]; [left; by exists e|by right].
  - right. exists [], x, pieces. split_and!; [done|constructor|].
    left. by exists e.
  - right. exists [], x, pieces. split_and!; [done|constructor|]. by right.
Qed.

(** X15: whatever [strip], [split] and [int] do, the reader ends in one of
    these ways and no other.  On an empty line it returns the prepared
    example board.  On a line that does not split into sixteen pieces it
    raises ValueError.  On sixteen pieces it ends the way [int] ends on the
    first piece [int] does not return on, if there is one; and otherwise it
    returns the integers, in the order typed, when they are the numbers
    0..15 in some order, and raises ValueError when they are not. *)
Theorem read_board_from_user_accepts strip split int typed :
  read_board_from_user strip split int typed
  = (if decide (strip typed = EmptyString) then Returns example_board
     else if decide (length (split (strip typed)) = 16%nat) then
       board ← int_each int (split (strip typed));
       if decide (valid_board board) then Returns board
       else Raises ValueError
     else Raises ValueError)
  ∧ (∀ b, read_board_from_user strip split int typed = Returns b
          ↔ (strip typed = EmptyString ∧ b = example_board)
            ∨ (strip typed ≠ EmptyString
               ∧ length (split (strip typed)) = 16%nat
               ∧ int_each int (split (strip typed)) = Returns b
               ∧ valid_board b))
  ∧ ((∃ board, int_each int (split (strip typed)) = Returns board
               ∧ Forall2 (λ x v, int x = Returns v)
                   (split (strip typed)) board)
     ∨ (∃ accepted x rest,
          split (strip typed) = accepted ++ x :: rest
          ∧ Forall (λ y, ∃ v, int y = Returns v) accepted
          ∧ ((∃ e, int x = Raises e
                   ∧ int_each int (split (strip typed)) = Raises e)
             ∨ (int x = OutOfFuel
                ∧ int_each int (split (strip typed)) = OutOfFuel)))).
Proof.
  split_and!.
  - apply read_board_from_user_cases.
  - intros b. apply read_board_from_user_returns.
  - apply int_each_cases.
Qed.

(** X16: a board the reader returns is one the search accepts: as [main]
    calls it, with the default limit, the search returns, with a count
    within the limit and, if with a path, a path from that board to the
    goal board. *)
Theorem read_then_search strip split int typed b :
  read_board_from_user strip split int typed = Returns b →
  valid_board b
  ∧ ∃ result,
      greedy_best_first_search b default_maximum_number_of_expansions
      = Returns result
      ∧ result.2 ≤ default_maximum_number_of_expansions
      ∧ ∀ path, result.1 = Some path →
          head path = Some b ∧ last path = Some GOAL_BOARD
          ∧ consecutive is_neighbor path.
Proof.
  intros Hread.
  assert (valid_board b) as Hb.
  { apply read_board_from_user_valid in Hread. done. }
  split; [done|].
  pose proof (search_loop_invariant b default_maximum_number_of_expansions
                (Z.to_nat default_maximum_number_of_expansions)
                (initial_state b)
                (initial_state_invariant b _ Hb)) as H.
  unfold greedy_best_first_search, greedy_best_first_search_fuel.
  destruct (search_loop _ _ _) as [[path count]| |] eqn:Hresult;
    [|done|].
  2:{ change (number_of_expanded_boards (initial_state b)) with 0 in H.
      lia. }
  destruct H as [Hok Hcount]. exists (path, count).
  split; [reflexivity|].
  change ((path, count).2) with count in *.
  change ((path, count).1) with path.
  split; [unfold default_maximum_number_of_expansions in *; lia|].
  intros path' ->. unfold result_ok in Hok.
  change ((Some path', count).1) with (Some path') in Hok.
  by destruct Hok as (? & ? & ? & _).
Qed.

Lemma read_then_search_witness :
  read_board_from_user (λ s, s) String.words
    (λ s, match s with
          | String c EmptyString => Returns (Z.of_nat (nat_of_ascii c) - 97)
          | _ => Raises ValueError
          end)
    "b c d e f g h i j k l m n a o p"
  = Returns two_slides_away
  ∧ valid_board two_slides_away
  ∧ ∃ result,
      greedy_best_first_search two_slides_away
        default_maximum_number_of_expansions
      = Returns result
      ∧ result.2 ≤ default_maximum_number_of_expansions
      ∧ ∀ path, result.1 = Some path →
          head path = Some two_slides_away ∧ last path = Some GOAL_BOARD
          ∧ consecutive is_neighbor path.
Proof.
  split; [vm_compute; reflexivity|].
  apply (read_then_search (λ s, s) String.words
           (λ s, match s with
                 | String c EmptyString =>
                     Returns (Z.of_nat (nat_of_ascii c) - 97)
                 | _ => Raises ValueError
                 end)
           "b c d e f g h i j k l m n a o p").
  vm_compute. reflexivity.
Defined.

(** ** The search on lists that are not valid boards, and on small limits *)

Lemma select_best_initial start :
  select_best [start] [0]
  = best_score ← compute_manhattan_total start; Returns (0, 0).
Proof.
  unfold select_best.
  rewrite (getitem_lookup [0] 0 0) by done. cbn [mbind outcome_bind].
  rewrite (getitem_lookup [start] 0 start) by done. cbn [mbind outcome_bind].
  by destruct (compute_manhattan_total start).
Qed.

Lemma search_loop_first_step fuel limit start :
  1 ≤ limit →
  search_loop (S fuel) limit (initial_state start)
  = next ← search_step (initial_state start);
    match next with
    | inl result => Returns result
    | inr st' => search_loop fuel limit st'
    end.
Proof.
  intros Hlimit. cbn [search_loop]. unfold loop_condition.
  cbn [initial_state frontier_indices number_of_expanded_boards].
  by destruct (Z.ltb_spec 0 limit); [|lia].
Qed.

(** X17: started on a list of fewer than sixteen integers, with a limit of
    at least 1, the search raises IndexError, at the first scoring. *)
Theorem search_short_board_raises (start : list Z) limit :
  (length start < 16)%nat → 1 ≤ limit →
  greedy_best_first_search start limit = Raises IndexError.
Proof.
  intros Hstart Hlimit.
  unfold greedy_best_first_search, greedy_best_first_search_fuel.
  destruct (Z.to_nat limit) as [|fuel] eqn:Hfuel; [lia|].
  rewrite search_loop_first_step by done.
  unfold search_step. cbn [initial_state list_of_all_boards frontier_indices].
  rewrite select_best_initial, compute_manhattan_total_cases.
  by rewrite decide_False by lia.
Qed.

Lemma search_short_board_raises_witness :
  (length [1; 2; 3; 0] < 16)%nat ∧ 1 ≤ 100000
  ∧ greedy_best_first_search [1; 2; 3; 0] 100000 = Raises IndexError.
Proof.
  split; [simpl; lia|]. split; [lia|].
  apply (search_short_board_raises [1; 2; 3; 0] 100000); [simpl; lia|lia].
Defined.

(** X18: started on a list of at least sixteen integers without a 0, with
    a limit of at least 1, the search raises ValueError: the list is not the
    goal, and its neighbors cannot be generated. *)
Theorem search_no_blank_raises (start : list Z) limit :
  (16 ≤ length start)%nat → 0 ∉ start → 1 ≤ limit →
  greedy_best_first_search start limit = Raises ValueError.
Proof.
  intros Hstart Hblank Hlimit.
  unfold greedy_best_first_search, greedy_best_first_search_fuel.
  destruct (Z.to_nat limit) as [|fuel] eqn:Hfuel; [lia|].
  rewrite search_loop_first_step by done.
  unfold search_step. cbn [initial_state list_of_all_boards frontier_indices].
  rewrite select_best_initial, compute_manhattan_total_cases.
  rewrite decide_True by lia. cbn [mbind outcome_bind].
  rewrite (pop_delete [0] 0) by (simpl; lia). cbn [mbind outcome_bind].
  rewrite (getitem_lookup [start] 0 start) by done. cbn [mbind outcome_bind].
  rewrite boards_are_equal_cases.
  rewrite decide_True by (simpl; lia).
  rewrite bool_decide_eq_false_2.
  2:{ intros Heq. apply Hblank.
      apply (list_elem_of_lookup_2 _ 15).
      rewrite <-(lookup_take_lt _ 16) by lia. by rewrite Heq. }
  cbn [mbind outcome_bind].
  by rewrite generate_without_blank.
Qed.

Lemma search_no_blank_raises_witness :
  (16 ≤ length [1; 2; 3; 4; 5; 6; 7; 8; 9; 10; 11; 12; 13; 14; 15; 16])%nat
  ∧ (0 ∉ [1; 2; 3; 4; 5; 6; 7; 8; 9; 10; 11; 12; 13; 14; 15; 16])
  ∧ 1 ≤ 100000
  ∧ greedy_best_first_search
      [1; 2; 3; 4; 5; 6; 7; 8; 9; 10; 11; 12; 13; 14; 15; 16] 100000
    = Raises ValueError.
Proof.
  assert (0 ∉ [1; 2; 3; 4; 5; 6; 7; 8; 9; 10; 11; 12; 13; 14; 15; 16])
    as Hblank.
  { intros Hin. repeat (apply elem_of_cons in Hin as [[=]|Hin]).
    by apply elem_of_nil in Hin. }
  split; [simpl; lia|]. split; [exact Hblank|]. split; [lia|].
  apply (search_no_blank_raises
           [1; 2; 3; 4; 5; 6; 7; 8; 9; 10; 11; 12; 13; 14; 15; 16] 100000);
    [simpl; lia|exact Hblank|lia].
Defined.

(** X19: with a limit of 0 or less the search returns no path and the
    count 0 without reading the start list at all. *)
Theorem search_limit_not_positive (start : list Z) limit :
  limit ≤ 0 → greedy_best_first_search start limit = Returns (None, 0).
Proof.
  intros Hlimit.
  unfold greedy_best_first_search, greedy_best_first_search_fuel.
  replace (Z.to_nat limit) with O by lia. cbn [search_loop].
  unfold loop_condition.
  cbn [initial_state frontier_indices number_of_expanded_boards].
  by destruct (Z.ltb_spec 0 limit); [lia|].
Qed.

Lemma search_limit_not_positive_witness :
  -3 ≤ 0 ∧ greedy_best_first_search [7; 7] (-3) = Returns (None, 0).
Proof.
  split; [lia|]. apply (search_limit_not_positive [7; 7] (-3)). lia.
Defined.
